(** * Request resolution and fragment expansion (graphql/schema/request.go)

    A shallow embedding of [schema.Operation] and
    [recursivelyExpandFragmentSelections].  The gqlparser AST nodes that the
    Go code mutates in place ([*ast.Field]) live in an explicit store indexed
    by addresses, so that a field shared between a fragment definition and
    the selection sets it was copied into is one node, as in the program.
    The parser, the validator and [collectFields] are not part of request.go:
    they are parameters of the development. *)

From stdpp Require Import base option list strings gmap fin_maps.

Set Warnings "-register-all,-clear-no-such-hyp".

Open Scope string_scope.
Open Scope list_scope.

(** ** Outcomes of running Go code: a value, a run-time panic, or no answer
       within the recursion budget of the model. *)

Inductive exec (A : Type) : Type :=
  | Done (a : A)
  | Panic (msg : string)
  | OutOfFuel.

Arguments Done {A} a.
Arguments Panic {A} msg.
Arguments OutOfFuel {A}.

Definition exec_bind {A B : Type} (m : exec A) (k : A → exec B) : exec B :=
  match m with
  | Done a => k a
  | Panic msg => Panic msg
  | OutOfFuel => OutOfFuel
  end.

Definition exec_map {A B : Type} (f : A → B) (m : exec A) : exec B :=
  exec_bind m (λ a, Done (f a)).

Notation "x <- m ;; k" := (exec_bind m (λ x, k))
  (at level 100, m at next level, right associativity,
   format "'[v' x  <-  m  ;;  '/' k ']'").

(** [for _, a := range l { body }] over a threaded state. *)
Fixpoint forEach {A S : Type} (body : A → S → exec S) (l : list A) (s : S)
  : exec S :=
  match l with
  | [] => Done s
  | a :: l' => s' <- body a s ;; forEach body l' s'
  end.

(** Dereferencing a possibly nil pointer. *)
Definition deref {A : Type} (what : string) (o : option A) : exec A :=
  match o with
  | Some a => Done a
  | None => Panic ("nil pointer dereference: " +:+ what)
  end.

(** ** The AST (github.com/vektah/gqlparser/v2/ast)

    Modelled from the spec: the declarations of the ast package are not in
    the sources.  The types below keep what request.go reads and writes
    ([Definition], [SelectionSet], [Kind], [Name], the three tables of the
    schema) and what the spec's data model names for a field (name, alias,
    arguments). *)

Inductive DefinitionKind : Type :=
  | Scalar | Object | Interface | Union | Enum | InputObject.

(** [ast.Type], as far as its [Name()] goes. *)
Record Type_ : Type := NamedType {
  Type_Name : string;
}.

Record FieldDefinition : Type := mkFieldDefinition {
  FieldDefinition_Name : string;
  FieldDefinition_Type : Type_;
}.

(** [ast.Definition]: a type of the schema. *)
Record TypeDefinition : Type := mkTypeDefinition {
  Definition_Kind : DefinitionKind;
  Definition_Name : string;
}.

(** [ast.Schema], the three tables request.go consults. *)
Record Schema : Type := mkSchema {
  Types : gmap string TypeDefinition;
  PossibleTypes : gmap string (list TypeDefinition);
  Implements : gmap string (list TypeDefinition);
}.

(** Address of an [ast.Field] node. *)
Abbreviation ptr := positive.

(** [ast.Selection]: [*ast.Field], [*ast.FragmentSpread] or
    [*ast.InlineFragment].  Only fields are written to, so only they are kept
    by address. *)
Inductive Selection : Type :=
  | FieldSel (p : ptr)
  | FragmentSpread (name : string)
  | InlineFragment (typeCondition : string) (sels : list Selection).

Record Argument : Type := mkArgument {
  Argument_Name : string;
  Argument_Value : string;
}.

Record Field : Type := mkField {
  Field_Alias : string;
  Field_Name : string;
  Field_Arguments : list Argument;
  Field_Definition : option FieldDefinition;
  Field_SelectionSet : list Selection;
}.

(** [field.SelectionSet = sels] *)
Definition setSelectionSet (f : Field) (sels : list Selection) : Field :=
  {| Field_Alias := Field_Alias f;
     Field_Name := Field_Name f;
     Field_Arguments := Field_Arguments f;
     Field_Definition := Field_Definition f;
     Field_SelectionSet := sels |}.

(** The store of field nodes. *)
Abbreviation heap := (gmap ptr Field).

Inductive OperationType : Type := Query | Mutation | Subscription.

Record OperationDefinition : Type := mkOperationDefinition {
  OperationDefinition_Operation : OperationType;
  OperationDefinition_Name : string;
  OperationDefinition_SelectionSet : list Selection;
}.

Record FragmentDefinition : Type := mkFragmentDefinition {
  FragmentDefinition_Name : string;
  FragmentDefinition_TypeCondition : string;
  FragmentDefinition_SelectionSet : list Selection;
}.

Record QueryDocument : Type := mkQueryDocument {
  Operations : list OperationDefinition;
  Fragments : list FragmentDefinition;
}.

(** Modelled from the spec: gqlparser's [OperationList.ForName] is not in the
    sources.  The spec selects "the named (or sole unnamed) operation" and
    requires that with exactly one operation an empty name still resolves to
    it; otherwise the name has to match an operation of the document. *)
Definition OperationList_ForName (l : list OperationDefinition) (name : string)
  : option OperationDefinition :=
  match l with
  | [o] => if decide (name = "") then Some o
           else if decide (OperationDefinition_Name o = name) then Some o else None
  | _ => List.find (λ o, bool_decide (OperationDefinition_Name o = name)) l
  end.

(** Modelled from the spec: gqlparser's [FragmentDefinitionList.ForName] is not
    in the sources; a fragment spread refers to the fragment definition of
    that name in the document. *)
Definition FragmentDefinitionList_ForName (l : list FragmentDefinition)
  (name : string) : option FragmentDefinition :=
  List.find (λ d, bool_decide (FragmentDefinition_Name d = name)) l.

(** ** Errors *)

(** [*gqlerror.Error]: a message with source locations (line, column). *)
Record gqlError : Type := mkGqlError {
  Message : string;
  Locations : list (nat * nat);
}.

(** The three kinds of value that [Operation] returns as [error]. *)
Inductive error : Type :=
  | errors_New (msg : string)
  | gqlerror_Error (e : gqlError)
  | gqlerror_List (l : list gqlError).

(** ** request.go *)

(** A value of a request variable ([interface{}]). *)
Inductive GoValue : Type :=
  | VNil | VBool (b : bool) | VInt (z : Z) | VString (s : string).

Record Request : Type := mkRequest {
  Request_Query : string;
  Request_OperationName : string;
  Request_Variables : gmap string GoValue;
}.

(** The [schema] struct wraps the parsed [*ast.Schema]. *)
Record schema : Type := mkschema {
  schema_schema : Schema;
}.

Record operation : Type := mkoperation {
  operation_op : OperationDefinition;
  operation_vars : gmap string GoValue;
  operation_query : string;
  operation_doc : QueryDocument;
  operation_inSchema : schema;
}.

Record requestContext : Type := mkrequestContext {
  RawQuery : string;
  Variables : gmap string GoValue;
  Doc : QueryDocument;
}.

Record CollectedField : Type := mkCollectedField {
  CollectedField_Field : ptr;
  CollectedField_Selections : list Selection;
}.

(** What [Operation] returns: [(operation, nil)] together with the store the
    expander left behind, or [(nil, err)]. *)
Inductive OperationResult : Type :=
  | ReturnOperation (o : operation) (h : heap)
  | ReturnError (e : error).

Definition typeAssertionFailure : string :=
  "interface conversion: ast.Selection is not *ast.Field".

Definition nilSchemaFailure : string := "nil pointer dereference: s".

(** The type assertion of a selection to a field pointer. *)
Definition assertField (s : Selection) : exec ptr :=
  match s with
  | FieldSel p => Done p
  | _ => Panic typeAssertionFailure
  end.

(** Lines 90-106: the type names a fragment on this field may have.  [None]
    is the [default] branch of the switch, where the function returns. *)
Definition fieldSatisfies (sch : Schema) (typeName : string)
  : exec (option (list string)) :=
  def <- deref "Types[typeName]" (Types sch !! typeName) ;;
  let satisfies := [typeName] in
  match Definition_Kind def with
  | Interface | Union =>
      let additionalTypes := default [] (PossibleTypes sch !! typeName) in
      Done (Some (satisfies ++ map Definition_Name additionalTypes))
  | Object =>
      let additionalTypes := default [] (Implements sch !! typeName) in
      Done (Some (satisfies ++ map Definition_Name additionalTypes))
  | _ => Done None
  end.

Section Resolver.

(** The collaborators of request.go. [parser.ParseQuery] allocates the
    document; [validator.Validate] annotates its fields with their
    definitions and reports the rule violations; [validator.VariableValues]
    coerces the variables; [collectFields] is defined elsewhere in the
    package. *)
Variable ParseQuery : string → (QueryDocument * heap) + gqlError.
Variable Validate : Schema → QueryDocument → heap → list gqlError * heap.
Variable VariableValues :
  Schema → OperationDefinition → gmap string GoValue →
  gmap string GoValue + gqlError.
Variable collectFields :
  requestContext → heap → list Selection → list string →
  exec (list CollectedField).

(** Lines 108-122, once [satisfies] is known. *)
Definition expandWith
    (recur : ptr → operation → heap → exec heap)
    (field : ptr) (f : Field) (satisfies : list string)
    (op : operation) (h : heap) : exec heap :=
  collectedFields <-
    collectFields
      {| RawQuery := operation_query op;
         Variables := operation_vars op;
         Doc := operation_doc op |}
      h (Field_SelectionSet f) satisfies ;;
  let selectionSet :=
    map (λ collectedField, FieldSel (CollectedField_Field collectedField))
        collectedFields in
  let h1 := <[field := setSelectionSet f selectionSet]> h in
  forEach (λ f h, p <- assertField f ;; recur p op h) selectionSet h1.

Fixpoint recursivelyExpandFragmentSelections
    (fuel : nat) (field : ptr) (op : operation) (h : heap) : exec heap :=
  match fuel with
  | 0 => OutOfFuel
  | S fuel' =>
      f <- deref "field" (h !! field) ;;
      def <- deref "field.Definition" (Field_Definition f) ;;
      let typeName := Type_Name (FieldDefinition_Type def) in
      sat <- fieldSatisfies (schema_schema (operation_inSchema op)) typeName ;;
      match sat with
      | None => Done h
      | Some satisfies =>
          expandWith (recursivelyExpandFragmentSelections fuel')
                     field f satisfies op h
      end
  end.

(** Lines 78-80. *)
Definition expandOperation (fuel : nat) (operation : operation) (h : heap)
  : exec heap :=
  forEach
    (λ s h, p <- assertField s ;;
            recursivelyExpandFragmentSelections fuel p operation h)
    (OperationDefinition_SelectionSet (operation_op operation)) h.

Definition noQueryError : error :=
  errors_New "no query string supplied in request".

Definition ambiguousOperationError : error :=
  errors_New
    ("Operation name must by supplied when query has more " +:+
     "than 1 operation.").

Definition unknownOperationError (name : string) : error :=
  errors_New
    ("Supplied operation name " +:+ name +:+ " isn't present in the request.").

Definition Operation (fuel : nat) (s : option schema) (req : option Request)
  : exec OperationResult :=
  match req with
  | None => Done (ReturnError noQueryError)
  | Some req =>
    if decide (Request_Query req = "") then Done (ReturnError noQueryError)
    else
    match ParseQuery (Request_Query req) with
    | inr gqlErr => Done (ReturnError (gqlerror_Error gqlErr))
    | inl (doc, h0) =>
      s <- deref "s" s ;;
      let '(listErr, h) := Validate (schema_schema s) doc h0 in
      if decide (length listErr ≠ 0) then Done (ReturnError (gqlerror_List listErr))
      else
      if decide (1 < length (Operations doc) ∧ Request_OperationName req = "")
      then Done (ReturnError ambiguousOperationError)
      else
      match OperationList_ForName (Operations doc) (Request_OperationName req) with
      | None =>
          Done (ReturnError (unknownOperationError (Request_OperationName req)))
      | Some op =>
        match VariableValues (schema_schema s) op (Request_Variables req) with
        | inr gqlErr => Done (ReturnError (gqlerror_Error gqlErr))
        | inl vars =>
          let operation :=
            {| operation_op := op;
               operation_vars := vars;
               operation_query := Request_Query req;
               operation_doc := doc;
               operation_inSchema := s |} in
          h' <- expandOperation fuel operation h ;;
          Done (ReturnOperation operation h')
        end
      end
    end
  end.

End Resolver.

Arguments expandWith collectFields recur field f satisfies op h : assert.
Arguments recursivelyExpandFragmentSelections collectFields fuel field op h : assert.
Arguments expandOperation collectFields fuel operation h : assert.
Arguments Operation ParseQuery Validate VariableValues collectFields fuel s req : assert.

(** ** collectFields *)

(** The key under which a field's result appears: its alias, or its name when
    it has none. *)
Definition responseKey (f : Field) : string :=
  if decide (Field_Alias f = "") then Field_Name f else Field_Alias f.

(** Fields with the same response key are merged into the position of the
    first one, their sub-selections appended. *)
Fixpoint mergeField (key : string) (cf : CollectedField)
    (grouped : list (string * CollectedField)) : list (string * CollectedField) :=
  match grouped with
  | [] => [(key, cf)]
  | (k, g) :: rest =>
      if decide (k = key)
      then (k, {| CollectedField_Field := CollectedField_Field g;
                  CollectedField_Selections :=
                    CollectedField_Selections g ++ CollectedField_Selections cf |})
           :: rest
      else (k, g) :: mergeField key cf rest
  end.

Definition mergeFields (grouped children : list (string * CollectedField))
  : list (string * CollectedField) :=
  foldl (λ g kc, mergeField kc.1 kc.2 g) grouped children.

(** Modelled from the spec: [collectFields] is defined outside request.go.
    The spec's step 2 walks the selection set: a plain field is kept as it
    is; a fragment spread or inline fragment is included only if its type
    condition is in [satisfies], and then its own selection set, resolved the
    same way, contributes its fields; fields with the same response key are
    merged into one position.  A fragment spread whose definition is absent
    from the document is fatal.  [fuel] bounds the nesting of fragments that
    is followed. *)
Fixpoint collectFieldsAux (fuel : nat) (reqCtx : requestContext) (h : heap)
    (satisfies : list string) (selSet : list Selection)
  : exec (list (string * CollectedField)) :=
  match fuel with
  | 0 => OutOfFuel
  | S fuel' =>
      forEach
        (λ sel groupedFields,
           match sel with
           | FieldSel p =>
               f <- deref "field" (h !! p) ;;
               Done (mergeField (responseKey f)
                       {| CollectedField_Field := p;
                          CollectedField_Selections := Field_SelectionSet f |}
                       groupedFields)
           | InlineFragment typeCondition sels =>
               if bool_decide (typeCondition ∈ satisfies)
               then
                 children <- collectFieldsAux fuel' reqCtx h satisfies sels ;;
                 Done (mergeFields groupedFields children)
               else Done groupedFields
           | FragmentSpread name =>
               match FragmentDefinitionList_ForName (Fragments (Doc reqCtx)) name with
               | None => Panic ("missing fragment " +:+ name)
               | Some fragment =>
                   if bool_decide
                        (FragmentDefinition_TypeCondition fragment ∈ satisfies)
                   then
                     children <-
                       collectFieldsAux fuel' reqCtx h satisfies
                         (FragmentDefinition_SelectionSet fragment) ;;
                     Done (mergeFields groupedFields children)
                   else Done groupedFields
               end
           end)
        selSet []
  end.

Definition collectFieldsWithin (fuel : nat) (reqCtx : requestContext) (h : heap)
    (selSet : list Selection) (satisfies : list string)
  : exec (list CollectedField) :=
  exec_map (map snd) (collectFieldsAux fuel reqCtx h satisfies selSet).

(** * The vocabulary of the theorems *)

(** The kinds whose fields can carry fragments: the three named cases of the
    switch in [recursivelyExpandFragmentSelections]. *)
Definition isComposite (k : DefinitionKind) : bool :=
  match k with
  | Interface | Union | Object => true
  | _ => false
  end.

(** The request has a query text, the text parses to [doc], and the
    validator reports nothing and leaves the store [h]. *)
Definition parsesAndValidates
    (ParseQuery : string → (QueryDocument * heap) + gqlError)
    (Validate : Schema → QueryDocument → heap → list gqlError * heap)
    (s : schema) (req : Request) (doc : QueryDocument) (h : heap) : Prop :=
  Request_Query req ≠ "" ∧
  ∃ h0, ParseQuery (Request_Query req) = inl (doc, h0) ∧
        Validate (schema_schema s) doc h0 = ([], h).

(** Lines 54-63 pick [op]: the request is not ambiguous and its operation
    name is found. *)
Definition selects (doc : QueryDocument) (req : Request)
    (op : OperationDefinition) : Prop :=
  ¬ (1 < length (Operations doc) ∧ Request_OperationName req = "") ∧
  OperationList_ForName (Operations doc) (Request_OperationName req) = Some op.

(** The operation value built at lines 70-75. *)
Definition operationOf (s : schema) (req : Request) (doc : QueryDocument)
    (op : OperationDefinition) (vars : gmap string GoValue) : operation :=
  {| operation_op := op;
     operation_vars := vars;
     operation_query := Request_Query req;
     operation_doc := doc;
     operation_inSchema := s |}.

(** [h'] has the nodes of [h], each with its attributes, and possibly another
    selection set. *)
Definition sameButSelections (h h' : heap) : Prop :=
  ∀ q, match h !! q with
       | Some f => ∃ sels, h' !! q = Some (setSelectionSet f sels)
       | None => h' !! q = None
       end.

(** The validation rule on leaves, read on the store: a field whose type is
    none of interface, union and object has an empty selection set. *)
Definition leafFieldsBare (sch : Schema) (h : heap) : Prop :=
  ∀ p f def td,
    h !! p = Some f →
    Field_Definition f = Some def →
    Types sch !! Type_Name (FieldDefinition_Type def) = Some td →
    isComposite (Definition_Kind td) = false →
    Field_SelectionSet f = [].

(** A selection that is a field of the set [V]. *)
Definition fieldIn (V : gset ptr) (s : Selection) : Prop :=
  ∃ q, s = FieldSel q ∧ q ∈ V.

(** Every node of [V] is in the store and selects only fields of [V]. *)
Definition closedUnder (h : heap) (V : gset ptr) : Prop :=
  ∀ p, p ∈ V → ∃ f, h !! p = Some f ∧ Forall (fieldIn V) (Field_SelectionSet f).

(** What a completed expansion of [roots] from [h] to [h'] has achieved, with
    [V] the nodes it went through. *)
Record expanded (sch : Schema) (roots : list Selection) (h h' : heap)
    (V : gset ptr) : Prop := mkExpanded {
  expanded_roots : Forall (fieldIn V) roots;
  expanded_closed : closedUnder h' V;
  expanded_outside : ∀ q, q ∉ V → h' !! q = h !! q;
  expanded_bare : leafFieldsBare sch h';
}.

(** The selections met by walking down from [roots] in the store [h]. *)
Inductive reachable (h : heap) (roots : list Selection) : Selection → Prop :=
  | reachable_root (s : Selection) :
      s ∈ roots → reachable h roots s
  | reachable_field (p : ptr) (f : Field) (s : Selection) :
      reachable h roots (FieldSel p) →
      h !! p = Some f →
      s ∈ Field_SelectionSet f →
      reachable h roots s
  | reachable_inline (typeCondition : string) (sels : list Selection)
      (s : Selection) :
      reachable h roots (InlineFragment typeCondition sels) →
      s ∈ sels →
      reachable h roots s.

(** Two calls of [Operation] with the same request parse the query text
    twice, and the two documents are the same up to the addresses at which
    their field nodes were allocated.  What follows compares such runs: the
    second document and store are the first ones with every address [p]
    replaced by [π p]. *)

Fixpoint renameSel (π : ptr → ptr) (s : Selection) : Selection :=
  match s with
  | FieldSel p => FieldSel (π p)
  | FragmentSpread name => FragmentSpread name
  | InlineFragment typeCondition sels =>
      InlineFragment typeCondition (map (renameSel π) sels)
  end.

Definition renameField (π : ptr → ptr) (f : Field) : Field :=
  setSelectionSet f (map (renameSel π) (Field_SelectionSet f)).

Definition renameOperationDefinition (π : ptr → ptr) (op : OperationDefinition)
  : OperationDefinition :=
  {| OperationDefinition_Operation := OperationDefinition_Operation op;
     OperationDefinition_Name := OperationDefinition_Name op;
     OperationDefinition_SelectionSet :=
       map (renameSel π) (OperationDefinition_SelectionSet op) |}.

Definition renameFragment (π : ptr → ptr) (d : FragmentDefinition)
  : FragmentDefinition :=
  {| FragmentDefinition_Name := FragmentDefinition_Name d;
     FragmentDefinition_TypeCondition := FragmentDefinition_TypeCondition d;
     FragmentDefinition_SelectionSet :=
       map (renameSel π) (FragmentDefinition_SelectionSet d) |}.

Definition renameDoc (π : ptr → ptr) (doc : QueryDocument) : QueryDocument :=
  {| Operations := map (renameOperationDefinition π) (Operations doc);
     Fragments := map (renameFragment π) (Fragments doc) |}.

Definition renameOperation (π : ptr → ptr) (o : operation) : operation :=
  {| operation_op := renameOperationDefinition π (operation_op o);
     operation_vars := operation_vars o;
     operation_query := operation_query o;
     operation_doc := renameDoc π (operation_doc o);
     operation_inSchema := operation_inSchema o |}.

Definition renameContext (π : ptr → ptr) (reqCtx : requestContext)
  : requestContext :=
  {| RawQuery := RawQuery reqCtx;
     Variables := Variables reqCtx;
     Doc := renameDoc π (Doc reqCtx) |}.

Definition renameCollected (π : ptr → ptr) (cf : CollectedField) : CollectedField :=
  {| CollectedField_Field := π (CollectedField_Field cf);
     CollectedField_Selections := map (renameSel π) (CollectedField_Selections cf) |}.

(** The store [h2] holds at [π p] the node that [h1] holds at [p]. *)
Definition heapIso (π : ptr → ptr) (h1 h2 : heap) : Prop :=
  ∀ p, h2 !! π p = renameField π <$> h1 !! p.

(** The tree a selection unfolds to in a store, down to a depth: what a walk
    of the selection tree sees, without the addresses. *)
Inductive Tree : Type :=
  | TField (alias name : string) (args : list Argument)
           (def : option FieldDefinition) (children : list Tree)
  | TSpread (name : string)
  | TInline (typeCondition : string) (children : list Tree)
  | TNil
  | TBelow.

Fixpoint unfold (depth : nat) (h : heap) (s : Selection) : Tree :=
  match depth with
  | 0 => TBelow
  | S depth' =>
      match s with
      | FieldSel p =>
          match h !! p with
          | Some f =>
              TField (Field_Alias f) (Field_Name f) (Field_Arguments f)
                     (Field_Definition f)
                     (map (unfold depth' h) (Field_SelectionSet f))
          | None => TNil
          end
      | FragmentSpread name => TSpread name
      | InlineFragment typeCondition sels =>
          TInline typeCondition (map (unfold depth' h) sels)
      end
  end.

(** Two outcomes of the same kind, with related values. *)
Definition execRel {A B : Type} (R : A → B → Prop) (m1 : exec A) (m2 : exec B)
  : Prop :=
  match m1, m2 with
  | Done a, Done b => R a b
  | Panic x, Panic y => x = y
  | OutOfFuel, OutOfFuel => True
  | _, _ => False
  end.

(** [C'] on the renamed arguments collects what [C] collects, renamed. *)
Definition collectIso (π : ptr → ptr)
    (C C' : requestContext → heap → list Selection → list string →
            exec (list CollectedField)) : Prop :=
  ∀ reqCtx h1 h2 sels satisfies,
    heapIso π h1 h2 →
    C' (renameContext π reqCtx) h2 (map (renameSel π) sels) satisfies =
      exec_map (map (renameCollected π)) (C reqCtx h1 sels satisfies).

Definition renameKeyed (π : ptr → ptr) (kc : string * CollectedField)
  : string * CollectedField :=
  (kc.1, renameCollected π kc.2).

(** Two results that cannot be told apart without looking at addresses: the
    same error, or operations of the same name and type with the same
    variables whose selection sets unfold to the same trees. *)
Definition sameResolution (r1 r2 : OperationResult) : Prop :=
  match r1, r2 with
  | ReturnOperation o1 h1, ReturnOperation o2 h2 =>
      OperationDefinition_Name (operation_op o2) =
        OperationDefinition_Name (operation_op o1) ∧
      OperationDefinition_Operation (operation_op o2) =
        OperationDefinition_Operation (operation_op o1) ∧
      operation_vars o2 = operation_vars o1 ∧
      ∀ depth,
        map (unfold depth h2) (OperationDefinition_SelectionSet (operation_op o2)) =
        map (unfold depth h1) (OperationDefinition_SelectionSet (operation_op o1))
  | ReturnError e1, ReturnError e2 => e1 = e2
  | _, _ => False
  end.

(** ** Further vocabulary: what the resolver refuses and what the expander
       writes *)

(** A selection that is a field. *)
Definition isFieldSel (s : Selection) : Prop := ∃ p, s = FieldSel p.

(** The field has a definition, and the type of the definition is a type of
    the schema: the two dereferences of line 90 and line 93 succeed on it. *)
Definition typedField (sch : Schema) (f : Field) : Prop :=
  ∃ def td,
    Field_Definition f = Some def ∧
    Types sch !! Type_Name (FieldDefinition_Type def) = Some td.

(** A typed field whose type is an interface, a union or an object. *)
Definition compositeField (sch : Schema) (f : Field) : Prop :=
  ∃ def td,
    Field_Definition f = Some def ∧
    Types sch !! Type_Name (FieldDefinition_Type def) = Some td ∧
    isComposite (Definition_Kind td) = true.

(** [f'] is [f], or [f] is a composite field and [f'] is [f] with a
    selection set made of fields only. *)
Definition keptOrRewritten (sch : Schema) (f f' : Field) : Prop :=
  f' = f ∨
  (compositeField sch f ∧
   f' = setSelectionSet f (Field_SelectionSet f') ∧
   Forall isFieldSel (Field_SelectionSet f')).

Definition writesOnlyFields (sch : Schema) (h h' : heap) : Prop :=
  ∀ q, match h !! q with
       | Some f => ∃ f', h' !! q = Some f' ∧ keptOrRewritten sch f f'
       | None => h' !! q = None
       end.

(** The six ways in which [Operation] refuses a request, each with the
    checks that passed before it (lines 40-68). *)
Inductive refused
    (ParseQuery : string → (QueryDocument * heap) + gqlError)
    (Validate : Schema → QueryDocument → heap → list gqlError * heap)
    (VariableValues : Schema → OperationDefinition → gmap string GoValue →
                      gmap string GoValue + gqlError)
    (s : option schema) : option Request → error → Prop :=
  | refused_absent :
      refused ParseQuery Validate VariableValues s None noQueryError
  | refused_empty (r : Request) :
      Request_Query r = "" →
      refused ParseQuery Validate VariableValues s (Some r) noQueryError
  | refused_syntax (r : Request) (e : gqlError) :
      Request_Query r ≠ "" →
      ParseQuery (Request_Query r) = inr e →
      refused ParseQuery Validate VariableValues s (Some r) (gqlerror_Error e)
  | refused_invalid (r : Request) (s' : schema) (doc : QueryDocument)
      (h0 h : heap) (listErr : list gqlError) :
      s = Some s' →
      Request_Query r ≠ "" →
      ParseQuery (Request_Query r) = inl (doc, h0) →
      Validate (schema_schema s') doc h0 = (listErr, h) →
      listErr ≠ [] →
      refused ParseQuery Validate VariableValues s (Some r) (gqlerror_List listErr)
  | refused_ambiguous (r : Request) (s' : schema) (doc : QueryDocument)
      (h : heap) :
      s = Some s' →
      parsesAndValidates ParseQuery Validate s' r doc h →
      1 < length (Operations doc) →
      Request_OperationName r = "" →
      refused ParseQuery Validate VariableValues s (Some r) ambiguousOperationError
  | refused_unknown (r : Request) (s' : schema) (doc : QueryDocument)
      (h : heap) :
      s = Some s' →
      parsesAndValidates ParseQuery Validate s' r doc h →
      ¬ (1 < length (Operations doc) ∧ Request_OperationName r = "") →
      OperationList_ForName (Operations doc) (Request_OperationName r) = None →
      refused ParseQuery Validate VariableValues s (Some r)
              (unknownOperationError (Request_OperationName r))
  | refused_variables (r : Request) (s' : schema) (doc : QueryDocument)
      (h : heap) (op : OperationDefinition) (e : gqlError) :
      s = Some s' →
      parsesAndValidates ParseQuery Validate s' r doc h →
      selects doc r op →
      VariableValues (schema_schema s') op (Request_Variables r) = inr e →
      refused ParseQuery Validate VariableValues s (Some r) (gqlerror_Error e).

(** [expanded], and every node gone through is a typed field. *)
Record expandedTyped (sch : Schema) (roots : list Selection) (h h' : heap)
    (V : gset ptr) : Prop := mkExpandedTyped {
  expandedTyped_expanded : expanded sch roots h h' V;
  expandedTyped_typed :
    ∀ p, p ∈ V → ∃ f, h' !! p = Some f ∧ typedField sch f;
}.

(** [collectFields] with the merged sub-selections of every collected field
    thrown away. *)
Definition withoutSelections
    (C : requestContext → heap → list Selection → list string →
         exec (list CollectedField))
    (reqCtx : requestContext) (h : heap) (sels : list Selection)
    (satisfies : list string) : exec (list CollectedField) :=
  exec_map
    (map (λ cf, {| CollectedField_Field := CollectedField_Field cf;
                   CollectedField_Selections := [] |}))
    (C reqCtx h sels satisfies).

(** * A small schema and a table-driven parser and validator, to run the
      resolver on concrete requests *)

Module Pets.

Definition tQuery := mkTypeDefinition Object "Query".
Definition tAnimal := mkTypeDefinition Interface "Animal".
Definition tDog := mkTypeDefinition Object "Dog".
Definition tCat := mkTypeDefinition Object "Cat".
Definition tString := mkTypeDefinition Scalar "String".

(** [type Query { pet: Animal }  interface Animal { name: String }
     type Dog implements Animal { name: String breed: String }
     type Cat implements Animal { name: String }] *)
Definition astSchema : Schema :=
  {| Types :=
       list_to_map
         [("Query", tQuery); ("Animal", tAnimal); ("Dog", tDog);
          ("Cat", tCat); ("String", tString)];
     PossibleTypes :=
       list_to_map
         [("Animal", [tDog; tCat]); ("Dog", [tDog]); ("Cat", [tCat]);
          ("Query", [tQuery])];
     Implements :=
       list_to_map [("Dog", [tAnimal]); ("Cat", [tAnimal])] |}.

Definition theSchema : schema := {| schema_schema := astSchema |}.

(** A field as the parser leaves it: no alias of its own, no arguments, the
    definition not yet attached. *)
Definition parsed (name : string) (sels : list Selection) : Field :=
  {| Field_Alias := name; Field_Name := name; Field_Arguments := [];
     Field_Definition := None; Field_SelectionSet := sels |}.

Definition anonymous (sels : list Selection) : OperationDefinition :=
  {| OperationDefinition_Operation := Query;
     OperationDefinition_Name := "";
     OperationDefinition_SelectionSet := sels |}.

Definition named (name : string) (sels : list Selection) : OperationDefinition :=
  {| OperationDefinition_Operation := Query;
     OperationDefinition_Name := name;
     OperationDefinition_SelectionSet := sels |}.

Definition qInline := "{ pet { name ... on Dog { breed } } }".
Definition qTopSpread :=
  "{ ...PetFields } fragment PetFields on Query { pet { name } }".
Definition qTopInline := "{ ... on Query { pet { name } } }".
Definition qTwo := "query A { pet { name } } query B { pet { name } }".
Definition qMisplaced := "{ pet { breed } }".
Definition qNamed := "query A { pet { name } }".
Definition qUnknownField := "{ unknown }".
Definition qShared :=
  "{ pet { ...N } other: pet { ...N } } fragment N on Animal { name }".

Definition syntaxError : gqlError :=
  {| Message := "Unexpected <EOF>"; Locations := [(1, 1)] |}.

Definition inlineDoc : QueryDocument :=
  {| Operations := [anonymous [FieldSel 1]]; Fragments := [] |}.
Definition inlineHeap : heap :=
  list_to_map
    [(1%positive, parsed "pet" [FieldSel 2; InlineFragment "Dog" [FieldSel 3]]);
     (2%positive, parsed "name" []);
     (3%positive, parsed "breed" [])].

Definition petNameHeap : heap :=
  list_to_map
    [(1%positive, parsed "pet" [FieldSel 2]);
     (2%positive, parsed "name" [])].

Definition topSpreadDoc : QueryDocument :=
  {| Operations := [anonymous [FragmentSpread "PetFields"]];
     Fragments := [mkFragmentDefinition "PetFields" "Query" [FieldSel 1]] |}.

Definition topInlineDoc : QueryDocument :=
  {| Operations := [anonymous [InlineFragment "Query" [FieldSel 1]]];
     Fragments := [] |}.

Definition twoDoc : QueryDocument :=
  {| Operations := [named "A" [FieldSel 1]; named "B" [FieldSel 3]];
     Fragments := [] |}.
Definition twoHeap : heap :=
  list_to_map
    [(1%positive, parsed "pet" [FieldSel 2]);
     (2%positive, parsed "name" []);
     (3%positive, parsed "pet" [FieldSel 4]);
     (4%positive, parsed "name" [])].

Definition misplacedDoc : QueryDocument :=
  {| Operations := [anonymous [FieldSel 1]]; Fragments := [] |}.
Definition misplacedHeap : heap :=
  list_to_map
    [(1%positive, parsed "pet" [FieldSel 2]);
     (2%positive, parsed "breed" [])].

Definition namedDoc : QueryDocument :=
  {| Operations := [named "A" [FieldSel 1]]; Fragments := [] |}.

Definition unknownFieldDoc : QueryDocument :=
  {| Operations := [anonymous [FieldSel 1]]; Fragments := [] |}.
Definition unknownFieldHeap : heap :=
  list_to_map [(1%positive, parsed "unknown" [])].

Definition sharedDoc : QueryDocument :=
  {| Operations := [anonymous [FieldSel 1; FieldSel 2]];
     Fragments := [mkFragmentDefinition "N" "Animal" [FieldSel 3]] |}.
Definition sharedHeap : heap :=
  list_to_map
    [(1%positive, parsed "pet" [FragmentSpread "N"]);
     (2%positive,
      {| Field_Alias := "other"; Field_Name := "pet"; Field_Arguments := [];
         Field_Definition := None;
         Field_SelectionSet := [FragmentSpread "N"] |});
     (3%positive, parsed "name" [])].

(** The documents of the requests above; every other text is a syntax
    error. *)
Definition ParseQuery (input : string) : (QueryDocument * heap) + gqlError :=
  if decide (input = qInline) then inl (inlineDoc, inlineHeap)
  else if decide (input = qTopSpread) then inl (topSpreadDoc, petNameHeap)
  else if decide (input = qTopInline) then inl (topInlineDoc, petNameHeap)
  else if decide (input = qTwo) then inl (twoDoc, twoHeap)
  else if decide (input = qNamed) then inl (namedDoc, petNameHeap)
  else if decide (input = qUnknownField) then inl (unknownFieldDoc, unknownFieldHeap)
  else if decide (input = qShared) then inl (sharedDoc, sharedHeap)
  else if decide (input = qMisplaced) then inl (misplacedDoc, misplacedHeap)
  else inr syntaxError.

Definition fieldTable : gmap string FieldDefinition :=
  list_to_map
    [("pet", mkFieldDefinition "pet" (NamedType "Animal"));
     ("name", mkFieldDefinition "name" (NamedType "String"));
     ("breed", mkFieldDefinition "breed" (NamedType "String"))].

(** The validator's walk attaches to each field its definition. *)
Definition annotate (f : Field) : Field :=
  {| Field_Alias := Field_Alias f;
     Field_Name := Field_Name f;
     Field_Arguments := Field_Arguments f;
     Field_Definition := fieldTable !! Field_Name f;
     Field_SelectionSet := Field_SelectionSet f |}.

(** The fields each type of the schema declares. *)
Definition typeFields : gmap string (list string) :=
  list_to_map
    [("Query", ["pet"]); ("Animal", ["name"]);
     ("Dog", ["name"; "breed"]); ("Cat", ["name"])].

Definition rootType (op : OperationDefinition) : string :=
  match OperationDefinition_Operation op with
  | Query => "Query"
  | Mutation => "Mutation"
  | Subscription => "Subscription"
  end.

(** A validation rule read along the selection tree: a field has to be
    declared by the type it is selected on, which is the root type of the
    operation, the type of the enclosing field, or the type condition of the
    enclosing fragment.  (A field that no type declares is reported by
    [violation] below.) *)
Fixpoint misplaced (fuel : nat) (h : heap) (parent : string)
    (sels : list Selection) : list gqlError :=
  match fuel with
  | 0 =>
      match sels with
      | [] => []
      | _ => [mkGqlError "Selection set nested too deeply" [(1, 1)]]
      end
  | S fuel' =>
      flat_map
        (λ sel,
           match sel with
           | FieldSel p =>
               match h !! p with
               | Some f =>
                   match Field_Definition f with
                   | Some def =>
                       (if bool_decide
                             (Field_Name f ∈ default [] (typeFields !! parent))
                        then []
                        else [mkGqlError
                                ("Cannot query field " +:+ Field_Name f +:+
                                 " on type " +:+ parent) [(1, 1)]])
                       ++ misplaced fuel' h (Type_Name (FieldDefinition_Type def))
                                    (Field_SelectionSet f)
                   | None => []
                   end
               | None => []
               end
           | FragmentSpread _ => []
           | InlineFragment typeCondition inner =>
               misplaced fuel' h typeCondition inner
           end)
        sels
  end.

(** Two validation rules read on each field: it is declared by some type,
    and a field of a leaf type has no selection set. *)
Definition violation (sch : Schema) (f : Field) : list gqlError :=
  match Field_Definition f with
  | None =>
      [mkGqlError ("Cannot query field " +:+ Field_Name f) [(1, 1)]]
  | Some def =>
      match Types sch !! Type_Name (FieldDefinition_Type def) with
      | None => [mkGqlError "Unknown type" [(1, 1)]]
      | Some td =>
          if isComposite (Definition_Kind td) then []
          else match Field_SelectionSet f with
               | [] => []
               | _ => [mkGqlError
                         ("Field " +:+ Field_Name f +:+
                          " must not have a selection") [(1, 1)]]
               end
      end
  end.

Definition Validate (sch : Schema) (doc : QueryDocument) (h : heap)
  : list gqlError * heap :=
  let h' := annotate <$> h in
  (flat_map (λ op, misplaced 8 h' (rootType op)
                             (OperationDefinition_SelectionSet op))
            (Operations doc)
   ++ flat_map (λ d, misplaced 8 h' (FragmentDefinition_TypeCondition d)
                               (FragmentDefinition_SelectionSet d))
               (Fragments doc)
   ++ flat_map (λ pf, violation sch pf.2) (map_to_list h'),
   h').

Definition VariableValues (sch : Schema) (op : OperationDefinition)
    (vars : gmap string GoValue) : gmap string GoValue + gqlError :=
  inl vars.

(** The resolver with the table-driven parser and validator, and
    [collectFields] following fragments to the same depth as the
    expander. *)
Definition resolve (fuel : nat) :=
  Operation ParseQuery Validate VariableValues (collectFieldsWithin fuel) fuel.

Definition request (query : string) (name : string) : Request :=
  {| Request_Query := query; Request_OperationName := name;
     Request_Variables := ∅ |}.

(** The store of [qInline] after validation, and the operation built for
    it. *)
Definition inlineStore : heap := annotate <$> inlineHeap.

Definition inlineOperation : operation :=
  {| operation_op := anonymous [FieldSel 1];
     operation_vars := ∅;
     operation_query := qInline;
     operation_doc := inlineDoc;
     operation_inSchema := theSchema |}.

Definition petField : Field :=
  {| Field_Alias := "pet"; Field_Name := "pet"; Field_Arguments := [];
     Field_Definition := Some (mkFieldDefinition "pet" (NamedType "Animal"));
     Field_SelectionSet := [FieldSel 2; InlineFragment "Dog" [FieldSel 3]] |}.

Definition shift (p : ptr) : ptr := (p + 10)%positive.

(** A second parse of the same texts, with every node ten addresses
    further. *)
Definition ParseQueryAgain (input : string) : (QueryDocument * heap) + gqlError :=
  match ParseQuery input with
  | inl (doc, h) => inl (renameDoc shift doc, kmap shift (renameField shift <$> h))
  | inr e => inr e
  end.

End Pets.

(** * Properties *)

(** ** Reasoning about [exec] *)

Lemma exec_bind_Done {A B : Type} (m : exec A) (k : A → exec B) (b : B) :
  exec_bind m k = Done b ↔ ∃ a, m = Done a ∧ k a = Done b.
Proof.
  split.
  - destruct m as [a| |]; simpl; intros H; try discriminate. by exists a.
  - by intros (a & -> & H).
Qed.

Lemma deref_Done {A : Type} (what : string) (o : option A) (a : A) :
  deref what o = Done a ↔ o = Some a.
Proof. destruct o; simpl; split; intros H; congruence. Qed.

Lemma assertField_Done (s : Selection) (p : ptr) :
  assertField s = Done p ↔ s = FieldSel p.
Proof. destruct s; simpl; split; intros H; congruence. Qed.

(** Split an equation [(x <- m ;; k) = Done _] at its first bind. *)
Tactic Notation "exec_step" hyp(H) "as" ident(x) ident(Hx) :=
  apply exec_bind_Done in H as (x & Hx & H).

(** A relation that is reflexive, transitive and established by every
    iteration holds between the states before and after a loop. *)
Lemma forEach_preserves {A S : Type} (R : S → S → Prop)
    (body : A → S → exec S) (l : list A) :
  (∀ s, R s s) →
  (∀ s1 s2 s3, R s1 s2 → R s2 s3 → R s1 s3) →
  (∀ a s s', a ∈ l → body a s = Done s' → R s s') →
  ∀ s s', forEach body l s = Done s' → R s s'.
Proof.
  intros Hrefl Htrans. induction l as [|a l IH]; intros Hbody s s' Hrun.
  - simpl in Hrun. injection Hrun as <-. apply Hrefl.
  - simpl in Hrun. exec_step Hrun as s1 Hs1.
    apply Htrans with s1.
    + apply (Hbody a); [left | done].
    + apply IH; [|done]. intros b t t' Hb. apply Hbody. by right.
Qed.

(** ** The frame of the expander *)

Lemma setSelectionSet_id (f : Field) : setSelectionSet f (Field_SelectionSet f) = f.
Proof. by destruct f. Qed.

Lemma setSelectionSet_twice (f : Field) (s1 s2 : list Selection) :
  setSelectionSet (setSelectionSet f s1) s2 = setSelectionSet f s2.
Proof. done. Qed.

Lemma sameButSelections_refl (h : heap) : sameButSelections h h.
Proof.
  intros q. destruct (h !! q) as [f|] eqn:E; [|done].
  exists (Field_SelectionSet f). by rewrite setSelectionSet_id.
Qed.

Lemma sameButSelections_trans (h1 h2 h3 : heap) :
  sameButSelections h1 h2 → sameButSelections h2 h3 → sameButSelections h1 h3.
Proof.
  intros H12 H23 q. specialize (H12 q). specialize (H23 q).
  destruct (h1 !! q) as [f|].
  - destruct H12 as [s Hs]. rewrite Hs in H23. destruct H23 as [s' Hs'].
    exists s'. by rewrite Hs', setSelectionSet_twice.
  - by rewrite H12 in H23.
Qed.

Lemma sameButSelections_insert (h : heap) (p : ptr) (f : Field)
    (sels : list Selection) :
  h !! p = Some f → sameButSelections h (<[p := setSelectionSet f sels]> h).
Proof.
  intros Hp q. destruct (decide (p = q)) as [<-|Hne].
  - rewrite Hp, lookup_insert_eq. by exists sels.
  - rewrite lookup_insert_ne by done. apply sameButSelections_refl.
Qed.

Section Expander.

Variable collectFields :
  requestContext → heap → list Selection → list string →
  exec (list CollectedField).

Local Abbreviation expand := (recursivelyExpandFragmentSelections collectFields).

(** One unfolding of the expander on a node that is there, has a
    definition, and whose type is in the schema. *)
Lemma expand_unfold (n : nat) (field : ptr) (op : operation) (h : heap)
    (f : Field) (def : FieldDefinition) :
  h !! field = Some f →
  Field_Definition f = Some def →
  expand (S n) field op h =
    (sat <- fieldSatisfies (schema_schema (operation_inSchema op))
              (Type_Name (FieldDefinition_Type def)) ;;
     match sat with
     | None => Done h
     | Some satisfies =>
         expandWith collectFields (expand n) field f satisfies op h
     end).
Proof. intros Hf Hdef. simpl. rewrite Hf. simpl. by rewrite Hdef. Qed.

Lemma expand_frame (n : nat) :
  ∀ field op h h',
    expand n field op h = Done h' → sameButSelections h h'.
Proof.
  induction n as [|n IH]; intros field op h h' Hrun; [done|].
  simpl in Hrun.
  exec_step Hrun as f Hf. apply deref_Done in Hf.
  exec_step Hrun as def Hdef.
  exec_step Hrun as sat Hsat.
  destruct sat as [satisfies|]; [|injection Hrun as <-; apply sameButSelections_refl].
  unfold expandWith in Hrun. exec_step Hrun as collected Hcollected.
  apply (forEach_preserves sameButSelections) in Hrun.
  - eapply sameButSelections_trans; [|exact Hrun].
    by apply sameButSelections_insert.
  - apply sameButSelections_refl.
  - apply sameButSelections_trans.
  - intros s t t' _ Hs. exec_step Hs as p Hp. by eapply IH.
Qed.

Lemma expandOperation_frame (n : nat) (op : operation) (h h' : heap) :
  expandOperation collectFields n op h = Done h' → sameButSelections h h'.
Proof.
  unfold expandOperation. apply (forEach_preserves sameButSelections).
  - apply sameButSelections_refl.
  - apply sameButSelections_trans.
  - intros s t t' _ Hs. exec_step Hs as p Hp. by eapply expand_frame.
Qed.

(** C9: fragment expansion keeps every field node of the store and changes
    nothing of it but its selection set: the name, the alias (and so the
    response key), the arguments and the type definition of each field are
    the same after a completed run of the expander as before it, and no
    node appears or disappears. *)
Theorem expansion_preserves_field_attributes
    (n : nat) (field : ptr) (op : operation) (h h' : heap) :
  expand n field op h = Done h' →
  ∀ q, match h !! q with
       | Some f =>
           ∃ f', h' !! q = Some f' ∧
                 f' = setSelectionSet f (Field_SelectionSet f') ∧
                 Field_Name f' = Field_Name f ∧
                 Field_Alias f' = Field_Alias f ∧
                 responseKey f' = responseKey f ∧
                 Field_Arguments f' = Field_Arguments f ∧
                 Field_Definition f' = Field_Definition f
       | None => h' !! q = None
       end.
Proof.
  intros Hrun q. apply expand_frame in Hrun. specialize (Hrun q).
  destruct (h !! q) as [f|]; [|done].
  destruct Hrun as [sels ->]. by exists (setSelectionSet f sels).
Qed.

(** C1: the type names a fragment on a field may have are decided by the
    kind of the field's declared type.  For an interface or a union they
    are the declared type name and the names of its possible types; for an
    object they are the declared type name and the names listed for it in
    the implements table; the expander then goes on with exactly this
    list.  For every other kind the expander returns at once and the store
    is the one it was given. *)
Theorem satisfies_by_kind
    (n : nat) (field : ptr) (op : operation) (h : heap)
    (f : Field) (def : FieldDefinition) (td : TypeDefinition) :
  let sch := schema_schema (operation_inSchema op) in
  let typeName := Type_Name (FieldDefinition_Type def) in
  h !! field = Some f →
  Field_Definition f = Some def →
  Types sch !! typeName = Some td →
  match Definition_Kind td with
  | Interface | Union =>
      ∃ satisfies,
        fieldSatisfies sch typeName = Done (Some satisfies) ∧
        (∀ t, t ∈ satisfies ↔
              t = typeName ∨
              ∃ d, d ∈ default [] (PossibleTypes sch !! typeName) ∧
                   Definition_Name d = t) ∧
        expand (S n) field op h =
          expandWith collectFields (expand n) field f satisfies op h
  | Object =>
      ∃ satisfies,
        fieldSatisfies sch typeName = Done (Some satisfies) ∧
        (∀ t, t ∈ satisfies ↔
              t = typeName ∨
              ∃ d, d ∈ default [] (Implements sch !! typeName) ∧
                   Definition_Name d = t) ∧
        expand (S n) field op h =
          expandWith collectFields (expand n) field f satisfies op h
  | _ =>
      fieldSatisfies sch typeName = Done None ∧
      expand (S n) field op h = Done h
  end.
Proof.
  intros sch typeName Hf Hdef Htd.
  assert (Hmem : ∀ (l : list TypeDefinition) (t : string),
             t ∈ [typeName] ++ map Definition_Name l ↔
             t = typeName ∨ ∃ d, d ∈ l ∧ Definition_Name d = t).
  { intros l t. rewrite elem_of_app, list_elem_of_singleton, list_elem_of_In.
    rewrite in_map_iff. setoid_rewrite list_elem_of_In.
    split; intros [Ht|(d & Hd1 & Hd2)]; eauto. }
  rewrite (expand_unfold n field op h f def Hf Hdef).
  fold sch typeName. unfold fieldSatisfies. rewrite Htd. simpl.
  destruct (Definition_Kind td); simpl;
    first [ by split
          | eexists; split; [reflexivity|]; split; [apply Hmem | reflexivity] ].
Qed.

End Expander.

(** ** No fragment survives expansion *)

Lemma fieldIn_mono (V W : gset ptr) (s : Selection) :
  V ⊆ W → fieldIn V s → fieldIn W s.
Proof. intros HVW (q & -> & Hq). exists q. split; [done | by apply HVW]. Qed.

Lemma closedUnder_reachable (h : heap) (V : gset ptr) (roots : list Selection)
    (s : Selection) :
  Forall (fieldIn V) roots → closedUnder h V →
  reachable h roots s → fieldIn V s.
Proof.
  intros Hroots Hclosed Hreach.
  induction Hreach as [s Hs|p f s _ IH Hp Hs|tc sels s _ IH Hs].
  - by eapply Forall_forall in Hroots.
  - destruct IH as (q & [= <-] & Hq).
    destruct (Hclosed p Hq) as (f' & Hf' & Hall).
    rewrite Hp in Hf'. injection Hf' as <-.
    by eapply Forall_forall in Hall.
  - by destruct IH as (q & [=] & _).
Qed.

Lemma fieldSatisfies_Some (sch : Schema) (typeName : string)
    (satisfies : list string) :
  fieldSatisfies sch typeName = Done (Some satisfies) →
  ∃ td, Types sch !! typeName = Some td ∧ isComposite (Definition_Kind td) = true.
Proof.
  unfold fieldSatisfies. intros H. exec_step H as td Htd.
  apply deref_Done in Htd. exists td. split; [done|].
  by destruct (Definition_Kind td).
Qed.

Lemma fieldSatisfies_None (sch : Schema) (typeName : string) :
  fieldSatisfies sch typeName = Done None →
  ∃ td, Types sch !! typeName = Some td ∧ isComposite (Definition_Kind td) = false.
Proof.
  unfold fieldSatisfies. intros H. exec_step H as td Htd.
  apply deref_Done in Htd. exists td. split; [done|].
  by destruct (Definition_Kind td).
Qed.

(** The loop over a selection set: if each iteration expands its selection,
    the loop expands them all. *)
Lemma forEach_expanded (sch : Schema) (body : Selection → heap → exec heap)
    (sels : list Selection) :
  (∀ s h h', s ∈ sels → leafFieldsBare sch h → body s h = Done h' →
             ∃ V, expanded sch [s] h h' V) →
  ∀ h h', leafFieldsBare sch h → forEach body sels h = Done h' →
          ∃ V, expanded sch sels h h' V.
Proof.
  induction sels as [|s sels IH]; intros Hbody h h' Hbare Hrun.
  - simpl in Hrun. injection Hrun as <-. exists ∅. by split.
  - simpl in Hrun. exec_step Hrun as h1 Hs.
    destruct (Hbody s h h1) as [V1 [Hr1 Hc1 Ho1 Hb1]]; [left | done | done |].
    destruct (IH (λ s h h' Hs, Hbody s h h' (list_elem_of_further _ _ _ Hs)) h1 h' Hb1 Hrun)
      as [V2 [Hr2 Hc2 Ho2 Hb2]].
    exists (V1 ∪ V2). split; [| |  |done].
    + constructor.
      * apply Forall_inv in Hr1. eapply fieldIn_mono; [|exact Hr1]. set_solver.
      * eapply Forall_impl; [exact Hr2|]. intros x. apply fieldIn_mono. set_solver.
    + intros p Hp. destruct (decide (p ∈ V2)) as [Hp2|Hp2].
      * destruct (Hc2 p Hp2) as (f & Hf & Hall). exists f. split; [done|].
        eapply Forall_impl; [exact Hall|]. intros x. apply fieldIn_mono. set_solver.
      * assert (Hp1 : p ∈ V1) by set_solver.
        destruct (Hc1 p Hp1) as (f & Hf & Hall). exists f.
        split; [by rewrite (Ho2 p Hp2)|].
        eapply Forall_impl; [exact Hall|]. intros x. apply fieldIn_mono. set_solver.
    + intros q Hq. rewrite Ho2 by set_solver. apply Ho1. set_solver.
Qed.

Section ExpanderInvariant.

Variable collectFields :
  requestContext → heap → list Selection → list string →
  exec (list CollectedField).

Local Abbreviation expand := (recursivelyExpandFragmentSelections collectFields).

Lemma expand_expanded (n : nat) :
  ∀ field op h h',
    leafFieldsBare (schema_schema (operation_inSchema op)) h →
    expand n field op h = Done h' →
    ∃ V, expanded (schema_schema (operation_inSchema op))
                  [FieldSel field] h h' V.
Proof.
  induction n as [|n IH]; intros field op h h' Hbare Hrun; [done|].
  simpl in Hrun.
  exec_step Hrun as f Hf. apply deref_Done in Hf.
  exec_step Hrun as def Hdef. apply deref_Done in Hdef.
  exec_step Hrun as sat Hsat.
  destruct sat as [satisfies|].
  - apply fieldSatisfies_Some in Hsat as (td & Htd & Hkind).
    unfold expandWith in Hrun. exec_step Hrun as collected Hcollected.
    set (sels := map (λ cf, FieldSel (CollectedField_Field cf)) collected) in *.
    set (h1 := <[field := setSelectionSet f sels]> h) in *.
    assert (Hbare1 : leafFieldsBare (schema_schema (operation_inSchema op)) h1).
    { intros p g gdef gtd Hp Hgdef Hgtd Hgkind. subst h1.
      destruct (decide (field = p)) as [<-|Hne].
      - rewrite lookup_insert_eq in Hp. injection Hp as <-. simpl in Hgdef.
        congruence.
      - rewrite lookup_insert_ne in Hp by done. by eapply Hbare. }
    apply (forEach_expanded (schema_schema (operation_inSchema op))) in Hrun
      as [V [Hr Hc Ho Hb]]; [| |done].
    + exists ({[field]} ∪ V). split; [| | |done].
      * constructor; [|done]. exists field. split; [done | set_solver].
      * intros p Hp. destruct (decide (p ∈ V)) as [HpV|HpV].
        -- destruct (Hc p HpV) as (g & Hg & Hall). exists g. split; [done|].
           eapply Forall_impl; [exact Hall|]. intros x. apply fieldIn_mono.
           set_solver.
        -- assert (p = field) as -> by set_solver.
           exists (setSelectionSet f sels). split.
           ++ rewrite (Ho field HpV). subst h1. apply lookup_insert_eq.
           ++ simpl. eapply Forall_impl; [exact Hr|]. intros x.
              apply fieldIn_mono. set_solver.
      * intros q Hq. rewrite Ho by set_solver. subst h1.
        apply lookup_insert_ne. set_solver.
    + intros s t t' _ Hbt Hs. exec_step Hs as p Hp.
      apply assertField_Done in Hp as ->. by apply IH.
  - injection Hrun as <-.
    apply fieldSatisfies_None in Hsat as (td & Htd & Hkind).
    exists {[field]}. split; [| | done | done].
    + constructor; [|done]. exists field. split; [done | set_solver].
    + intros p Hp. assert (p = field) as -> by set_solver.
      exists f. split; [done|].
      by rewrite (Hbare field f def td Hf Hdef Htd Hkind).
Qed.

Lemma expandOperation_expanded (n : nat) (op : operation) (h h' : heap) :
  leafFieldsBare (schema_schema (operation_inSchema op)) h →
  expandOperation collectFields n op h = Done h' →
  ∃ V, expanded (schema_schema (operation_inSchema op))
                (OperationDefinition_SelectionSet (operation_op op)) h h' V.
Proof.
  unfold expandOperation. intros Hbare Hrun.
  apply (forEach_expanded (schema_schema (operation_inSchema op))) in Hrun;
    [done| |done].
  intros s t t' _ Hbt Hs. exec_step Hs as p Hp.
  apply assertField_Done in Hp as ->. by eapply expand_expanded.
Qed.

End ExpanderInvariant.

(** ** The recursion budget *)

(** An outcome other than [OutOfFuel] is final: a larger budget gives it
    again. *)
Lemma forEach_final {A S : Type} (body1 body2 : A → S → exec S) (l : list A) :
  (∀ a s, a ∈ l → body1 a s ≠ OutOfFuel → body2 a s = body1 a s) →
  ∀ s, forEach body1 l s ≠ OutOfFuel → forEach body2 l s = forEach body1 l s.
Proof.
  induction l as [|a l IH]; intros Hbody s Hrun; [done|]. simpl in *.
  rewrite Hbody; [|left|by destruct (body1 a s)].
  destruct (body1 a s) as [s'| |]; simpl in *; [|done..].
  apply IH; [|done]. intros b t Hb. apply Hbody. by right.
Qed.

Section Budget.

Variable collectFields :
  requestContext → heap → list Selection → list string →
  exec (list CollectedField).

Local Abbreviation expand := (recursivelyExpandFragmentSelections collectFields).

Lemma expand_final (n : nat) :
  ∀ field op h,
    expand n field op h ≠ OutOfFuel →
    expand (S n) field op h = expand n field op h.
Proof.
  induction n as [|n IH]; intros field op h Hrun; [done|].
  remember (S n) as m eqn:Hm. simpl. subst m. simpl in Hrun |- *.
  destruct (h !! field) as [f|]; simpl in *; [|done].
  destruct (Field_Definition f) as [def|]; simpl in *; [|done].
  destruct (fieldSatisfies _ _) as [[satisfies|]| |]; simpl in *; try done.
  unfold expandWith in *.
  destruct (collectFields _ h (Field_SelectionSet f) satisfies)
    as [collected| |]; simpl in *; [|done..].
  apply forEach_final; [|done].
  intros s t _ Hs. destruct (assertField s) as [p| |]; simpl in *; [|done..].
  by apply IH.
Qed.

Lemma expand_enough (n m : nat) (field : ptr) (op : operation) (h : heap) :
  (n ≤ m)%nat →
  expand n field op h ≠ OutOfFuel →
  expand m field op h = expand n field op h.
Proof.
  induction 1 as [|m Hle IH]; intros Hrun; [done|].
  rewrite expand_final; [by apply IH | by rewrite IH].
Qed.

End Budget.

(** ** The resolver *)

Section ResolverFacts.

Variable ParseQuery : string → (QueryDocument * heap) + gqlError.
Variable Validate : Schema → QueryDocument → heap → list gqlError * heap.
Variable VariableValues :
  Schema → OperationDefinition → gmap string GoValue →
  gmap string GoValue + gqlError.
Variable collectFields :
  requestContext → heap → list Selection → list string →
  exec (list CollectedField).

Local Abbreviation Operation' :=
  (Operation ParseQuery Validate VariableValues collectFields).

Lemma Operation_no_query (fuel : nat) (s : option schema) (req : option Request) :
  req = None ∨ (∃ r, req = Some r ∧ Request_Query r = "") →
  Operation' fuel s req = Done (ReturnError noQueryError).
Proof.
  intros [->|(r & -> & Hq)]; [done|]. simpl. by rewrite decide_True.
Qed.

Lemma Operation_parse_error (fuel : nat) (s : option schema) (req : Request)
    (e : gqlError) :
  Request_Query req ≠ "" →
  ParseQuery (Request_Query req) = inr e →
  Operation' fuel s (Some req) = Done (ReturnError (gqlerror_Error e)).
Proof. intros Hq He. simpl. by rewrite decide_False, He. Qed.

Lemma Operation_nil_schema (fuel : nat) (req : Request)
    (doc : QueryDocument) (h0 : heap) :
  Request_Query req ≠ "" →
  ParseQuery (Request_Query req) = inl (doc, h0) →
  Operation' fuel None (Some req) = Panic nilSchemaFailure.
Proof. intros Hq He. simpl. by rewrite decide_False, He. Qed.

Lemma Operation_validation_error (fuel : nat) (s : schema) (req : Request)
    (doc : QueryDocument) (h0 h : heap) (listErr : list gqlError) :
  Request_Query req ≠ "" →
  ParseQuery (Request_Query req) = inl (doc, h0) →
  Validate (schema_schema s) doc h0 = (listErr, h) →
  listErr ≠ [] →
  Operation' fuel (Some s) (Some req) = Done (ReturnError (gqlerror_List listErr)).
Proof.
  intros Hq He Hv Hne. simpl. rewrite decide_False, He by done. simpl.
  rewrite Hv. rewrite decide_True; [done|]. by destruct listErr.
Qed.

(** Past validation, [Operation] is lines 54-82. *)
Lemma Operation_validated (fuel : nat) (s : schema) (req : Request)
    (doc : QueryDocument) (h : heap) :
  parsesAndValidates ParseQuery Validate s req doc h →
  Operation' fuel (Some s) (Some req) =
    if decide (1 < length (Operations doc) ∧ Request_OperationName req = "")
    then Done (ReturnError ambiguousOperationError)
    else
      match OperationList_ForName (Operations doc) (Request_OperationName req) with
      | None => Done (ReturnError (unknownOperationError (Request_OperationName req)))
      | Some op =>
          match VariableValues (schema_schema s) op (Request_Variables req) with
          | inr gqlErr => Done (ReturnError (gqlerror_Error gqlErr))
          | inl vars =>
              h' <- expandOperation collectFields fuel (operationOf s req doc op vars) h ;;
              Done (ReturnOperation (operationOf s req doc op vars) h')
          end
      end.
Proof.
  intros (Hq & h0 & He & Hv). simpl. rewrite decide_False, He by done. simpl.
  rewrite Hv. by rewrite decide_False by (simpl; lia).
Qed.

Lemma Operation_ambiguous (fuel : nat) (s : schema) (req : Request)
    (doc : QueryDocument) (h : heap) :
  parsesAndValidates ParseQuery Validate s req doc h →
  1 < length (Operations doc) →
  Request_OperationName req = "" →
  Operation' fuel (Some s) (Some req) = Done (ReturnError ambiguousOperationError).
Proof.
  intros Hpv Hlen Hname. rewrite (Operation_validated _ _ _ _ _ Hpv).
  by rewrite decide_True.
Qed.

Lemma Operation_unknown (fuel : nat) (s : schema) (req : Request)
    (doc : QueryDocument) (h : heap) :
  parsesAndValidates ParseQuery Validate s req doc h →
  ¬ (1 < length (Operations doc) ∧ Request_OperationName req = "") →
  OperationList_ForName (Operations doc) (Request_OperationName req) = None →
  Operation' fuel (Some s) (Some req) =
    Done (ReturnError (unknownOperationError (Request_OperationName req))).
Proof.
  intros Hpv Hamb Hnone. rewrite (Operation_validated _ _ _ _ _ Hpv).
  by rewrite decide_False, Hnone.
Qed.

Lemma Operation_variable_error (fuel : nat) (s : schema) (req : Request)
    (doc : QueryDocument) (h : heap) (op : OperationDefinition) (e : gqlError) :
  parsesAndValidates ParseQuery Validate s req doc h →
  selects doc req op →
  VariableValues (schema_schema s) op (Request_Variables req) = inr e →
  Operation' fuel (Some s) (Some req) = Done (ReturnError (gqlerror_Error e)).
Proof.
  intros Hpv [Hamb Hop] Hvars. rewrite (Operation_validated _ _ _ _ _ Hpv).
  by rewrite decide_False, Hop, Hvars.
Qed.

Lemma Operation_expands (fuel : nat) (s : schema) (req : Request)
    (doc : QueryDocument) (h : heap) (op : OperationDefinition)
    (vars : gmap string GoValue) :
  parsesAndValidates ParseQuery Validate s req doc h →
  selects doc req op →
  VariableValues (schema_schema s) op (Request_Variables req) = inl vars →
  Operation' fuel (Some s) (Some req) =
    (h' <- expandOperation collectFields fuel (operationOf s req doc op vars) h ;;
     Done (ReturnOperation (operationOf s req doc op vars) h')).
Proof.
  intros Hpv [Hamb Hop] Hvars. rewrite (Operation_validated _ _ _ _ _ Hpv).
  by rewrite decide_False, Hop, Hvars.
Qed.

(** Where a returned operation comes from. *)
Lemma Operation_returns_operation (fuel : nat) (s : option schema)
    (req : option Request) (o : operation) (h' : heap) :
  Operation' fuel s req = Done (ReturnOperation o h') →
  ∃ s' req' doc h op vars,
    s = Some s' ∧ req = Some req' ∧
    parsesAndValidates ParseQuery Validate s' req' doc h ∧
    selects doc req' op ∧
    VariableValues (schema_schema s') op (Request_Variables req') = inl vars ∧
    o = operationOf s' req' doc op vars ∧
    expandOperation collectFields fuel o h = Done h'.
Proof.
  intros Hrun. destruct req as [req|]; [|done]. simpl in Hrun.
  destruct (decide (Request_Query req = "")) as [|Hq]; [done|].
  destruct (ParseQuery (Request_Query req)) as [[doc h0]|e] eqn:He; [|done].
  destruct s as [s|]; [|done]. simpl in Hrun.
  destruct (Validate (schema_schema s) doc h0) as [listErr h] eqn:Hv.
  destruct (decide (length listErr ≠ 0)) as [|Hlen]; [done|].
  destruct (decide (1 < length (Operations doc) ∧ Request_OperationName req = ""))
    as [|Hamb]; [done|].
  destruct (OperationList_ForName (Operations doc) (Request_OperationName req))
    as [op|] eqn:Hop; [|done].
  destruct (VariableValues (schema_schema s) op (Request_Variables req))
    as [vars|e] eqn:Hvars; [|done].
  exec_step Hrun as h1 Hexp. injection Hrun as <- <-.
  exists s, req, doc, h, op, vars. repeat split; try done.
  exists h0. split; [done|]. destruct listErr; [done|]. simpl in Hlen. lia.
Qed.

Lemma forEach_app {A S : Type} (body : A → S → exec S) (l1 l2 : list A) (s : S) :
  forEach body (l1 ++ l2) s = (s1 <- forEach body l1 s ;; forEach body l2 s1).
Proof.
  revert s. induction l1 as [|a l1 IH]; intros s; [done|].
  simpl. destruct (body a s) as [s'| |]; simpl; [apply IH | done | done].
Qed.

(** C8: a request that is absent, or whose query text is empty, is
    answered with the input error and with no operation, whatever the
    schema and the operation name and variables of the request. *)
Theorem empty_query_is_input_error (fuel : nat) (s : option schema)
    (name : string) (vars : gmap string GoValue) :
  Operation' fuel s None = Done (ReturnError noQueryError) ∧
  Operation' fuel s (Some (mkRequest "" name vars)) = Done (ReturnError noQueryError).
Proof. split; apply Operation_no_query; eauto. Qed.

(** C5: when the selected operation has, among its top-level selections,
    one that is not a field, [Operation] runs the expander on the
    selections before it and then panics on the type assertion: it equals
    that run followed by the panic, so it returns neither an operation nor
    an error, and it panics as soon as the earlier selections are done. *)
Theorem top_level_fragment_panics (fuel : nat) (s : schema) (req : Request)
    (doc : QueryDocument) (h : heap) (op : OperationDefinition)
    (vars : gmap string GoValue) (before after : list Selection)
    (x : Selection) :
  parsesAndValidates ParseQuery Validate s req doc h →
  selects doc req op →
  VariableValues (schema_schema s) op (Request_Variables req) = inl vars →
  OperationDefinition_SelectionSet op = before ++ x :: after →
  (∀ p, x ≠ FieldSel p) →
  let o := operationOf s req doc op vars in
  let body := λ s h, p <- assertField s ;;
                     recursivelyExpandFragmentSelections collectFields fuel p o h in
  Operation' fuel (Some s) (Some req) =
    (h1 <- forEach body before h ;; Panic typeAssertionFailure) ∧
  (∀ r, Operation' fuel (Some s) (Some req) ≠ Done r) ∧
  (∀ h1, forEach body before h = Done h1 →
         Operation' fuel (Some s) (Some req) = Panic typeAssertionFailure).
Proof.
  intros Hpv Hsel Hvars Hsels Hx o body.
  assert (Heq : Operation' fuel (Some s) (Some req) =
                (h1 <- forEach body before h ;; Panic typeAssertionFailure)).
  { rewrite (Operation_expands _ _ _ _ _ _ _ Hpv Hsel Hvars).
    unfold expandOperation. fold o. simpl. rewrite Hsels. fold body.
    rewrite forEach_app. simpl.
    destruct (forEach body before h) as [h1| |]; simpl; try done.
    assert (Hbody : body x h1 = Panic typeAssertionFailure).
    { unfold body. destruct x; simpl; [by destruct (Hx p) | done | done]. }
    by rewrite Hbody. }
  split; [done|]. rewrite Heq. split.
  - intros r. by destruct (forEach body before h).
  - by intros h1 ->.
Qed.

(** Amended C4: with no schema, the input error is returned exactly as it
    is with one, before any parsing, when the request is absent or its
    query text is empty; for any other request a syntax error of the query
    is returned, and a query that parses makes [Operation] dereference the
    absent schema and panic. *)
Theorem nil_schema_is_not_checked (fuel : nat) (req : option Request) :
  Operation' fuel None req =
    match req with
    | None => Done (ReturnError noQueryError)
    | Some r =>
        if decide (Request_Query r = "") then Done (ReturnError noQueryError)
        else match ParseQuery (Request_Query r) with
             | inr gqlErr => Done (ReturnError (gqlerror_Error gqlErr))
             | inl _ => Panic nilSchemaFailure
             end
    end.
Proof.
  destruct req as [r|]; [|done]. simpl.
  destruct (decide (Request_Query r = "")); [done|].
  by destruct (ParseQuery (Request_Query r)) as [[doc h0]|e].
Qed.

(** Amended C6: for a request that parses and passes validation, whose
    document has exactly one operation and whose operation name is empty,
    that operation is the one selected: [Operation] returns no error made
    by the resolver itself (neither the ambiguous-operation nor the
    unknown-operation error), and once the variables are coerced and the
    expansion of the operation completes it returns that operation. *)
Theorem sole_operation_is_selected (fuel : nat) (s : schema) (req : Request)
    (doc : QueryDocument) (h : heap) (op : OperationDefinition) :
  parsesAndValidates ParseQuery Validate s req doc h →
  Operations doc = [op] →
  Request_OperationName req = "" →
  selects doc req op ∧
  (∀ msg, Operation' fuel (Some s) (Some req) ≠ Done (ReturnError (errors_New msg))) ∧
  (∀ vars h',
      VariableValues (schema_schema s) op (Request_Variables req) = inl vars →
      expandOperation collectFields fuel (operationOf s req doc op vars) h = Done h' →
      Operation' fuel (Some s) (Some req) =
        Done (ReturnOperation (operationOf s req doc op vars) h')).
Proof.
  intros Hpv Hops Hname.
  assert (Hsel : selects doc req op).
  { split; rewrite Hops, Hname; simpl; [lia | done]. }
  split; [done|]. split.
  - intros msg.
    destruct (VariableValues (schema_schema s) op (Request_Variables req))
      as [vars|e] eqn:Hvars.
    + rewrite (Operation_expands _ _ _ _ _ _ _ Hpv Hsel Hvars).
      by destruct (expandOperation _ _ _ _).
    + by rewrite (Operation_variable_error _ _ _ _ _ _ _ Hpv Hsel Hvars).
  - intros vars h' Hvars Hexp.
    rewrite (Operation_expands _ _ _ _ _ _ _ Hpv Hsel Hvars). by rewrite Hexp.
Qed.

Lemma find_name_None (l : list OperationDefinition) (name : string) :
  (∀ o, o ∈ l → OperationDefinition_Name o ≠ name) →
  List.find (λ o, bool_decide (OperationDefinition_Name o = name)) l = None.
Proof.
  induction l as [|o l IH]; intros Hno; [done|]. simpl.
  rewrite bool_decide_eq_false_2 by (apply Hno; left).
  apply IH. intros o' Ho'. apply Hno. by right.
Qed.

Lemma OperationList_ForName_None (l : list OperationDefinition) (name : string) :
  (∀ o, o ∈ l → OperationDefinition_Name o ≠ name) →
  name ≠ "" ∨ l = [] →
  OperationList_ForName l name = None.
Proof.
  intros Hno Hname. destruct l as [|o [|o' l]].
  - done.
  - destruct Hname as [Hname|]; [|done]. simpl.
    rewrite decide_False by done.
    rewrite decide_False; [done|]. apply Hno. left.
  - by apply find_name_None.
Qed.

(** Amended C7: for a request that parses and passes validation and whose
    operation name is that of no operation of the document, [Operation]
    returns the one error "Supplied operation name ... isn't present in
    the request." carrying the supplied name, and no operation, provided
    the name is not empty (or the document has no operation at all). *)
Theorem unknown_operation_name (fuel : nat) (s : schema) (req : Request)
    (doc : QueryDocument) (h : heap) :
  parsesAndValidates ParseQuery Validate s req doc h →
  (∀ o, o ∈ Operations doc →
        OperationDefinition_Name o ≠ Request_OperationName req) →
  Request_OperationName req ≠ "" ∨ Operations doc = [] →
  Operation' fuel (Some s) (Some req) =
    Done (ReturnError
            (errors_New ("Supplied operation name " +:+ Request_OperationName req
                         +:+ " isn't present in the request."))).
Proof.
  intros Hpv Hno Hname.
  rewrite (Operation_unknown fuel s req doc h Hpv); [done| |].
  - intros [Hlen Hempty]. destruct Hname as [Hname|Hname]; [done|].
    rewrite Hname in Hlen. simpl in Hlen. lia.
  - by apply OperationList_ForName_None.
Qed.

Section ValidatedLeaves.

(** The validator enforces the rule on leaves: a document it accepts has
    no selection set on a field of a scalar or enum type. *)
Hypothesis Validate_leaf_rule :
  ∀ sch doc h0 h, Validate sch doc h0 = ([], h) → leafFieldsBare sch h.

(** C2: in the store that a successful [Operation] returns, every
    selection reached from the selection set of the returned operation
    is a field, and a field that is in the store: no fragment spread and
    no inline fragment is left. *)
Theorem no_fragment_after_resolution (fuel : nat) (s : option schema)
    (req : option Request) (o : operation) (h' : heap) :
  Operation' fuel s req = Done (ReturnOperation o h') →
  ∀ sel,
    reachable h' (OperationDefinition_SelectionSet (operation_op o)) sel →
    ∃ p, sel = FieldSel p ∧ is_Some (h' !! p).
Proof.
  intros Hrun sel Hsel.
  apply Operation_returns_operation in Hrun
    as (s' & req' & doc & h & op & vars & -> & -> & Hpv & _ & _ & Ho & Hexp).
  destruct Hpv as (_ & h0 & _ & Hv). apply Validate_leaf_rule in Hv.
  assert (Hsch : schema_schema (operation_inSchema o) = schema_schema s')
    by by rewrite Ho.
  rewrite <- Hsch in Hv.
  apply expandOperation_expanded in Hexp as [V [Hr Hc _ _]]; [|done].
  destruct (closedUnder_reachable h' V _ sel Hr Hc Hsel) as (p & -> & Hp).
  exists p. split; [done|]. destruct (Hc p Hp) as (f & Hf & _). by exists f.
Qed.

End ValidatedLeaves.

End ResolverFacts.

(** ** Two runs on the same request *)

Lemma execRel_bind {A B A' B' : Type} (R : A → B → Prop) (Q : A' → B' → Prop)
    (m1 : exec A) (m2 : exec B) (k1 : A → exec A') (k2 : B → exec B') :
  execRel R m1 m2 →
  (∀ a b, R a b → execRel Q (k1 a) (k2 b)) →
  execRel Q (exec_bind m1 k1) (exec_bind m2 k2).
Proof.
  destruct m1 as [a| |], m2 as [b| |]; simpl; intros Hm Hk; try done.
  by apply Hk.
Qed.

Lemma execRel_map {A B : Type} (g : A → B) (m : exec A) :
  execRel (λ a b, b = g a) m (exec_map g m).
Proof. by destruct m. Qed.

Lemma forEach_rel {A B S T : Type} (R : S → T → Prop) (g : A → B)
    (body1 : A → S → exec S) (body2 : B → T → exec T) (l : list A) :
  (∀ a s t, a ∈ l → R s t → execRel R (body1 a s) (body2 (g a) t)) →
  ∀ s t, R s t → execRel R (forEach body1 l s) (forEach body2 (map g l) t).
Proof.
  induction l as [|a l IH]; intros Hbody s t Hst; [done|]. simpl.
  apply execRel_bind with R; [apply Hbody; [left | done]|].
  intros s' t' Hst'. apply IH; [|done].
  intros b u v Hb. apply Hbody. by right.
Qed.

Lemma assertField_rename (π : ptr → ptr) (s : Selection) :
  execRel (λ p q, q = π p) (assertField s) (assertField (renameSel π s)).
Proof. by destruct s. Qed.

Section Renaming.

Variable π : ptr → ptr.
Hypothesis π_inj : Inj (=) (=) π.

Lemma heapIso_insert (h1 h2 : heap) (p : ptr) (f : Field) :
  heapIso π h1 h2 →
  heapIso π (<[p := f]> h1) (<[π p := renameField π f]> h2).
Proof.
  intros Hiso q. destruct (decide (p = q)) as [<-|Hne].
  - by rewrite !lookup_insert_eq.
  - rewrite !lookup_insert_ne; [apply Hiso | done |].
    intros Heq. by apply π_inj in Heq.
Qed.

Lemma unfold_rename (depth : nat) :
  ∀ h1 h2 s, heapIso π h1 h2 →
    unfold depth h2 (renameSel π s) = unfold depth h1 s.
Proof.
  induction depth as [|depth IH]; intros h1 h2 s Hiso; [done|].
  destruct s as [p|name|tc sels]; simpl.
  - rewrite (Hiso p). destruct (h1 !! p) as [f|]; simpl; [|done].
    f_equal. rewrite map_map. apply map_ext. intros s. by apply IH.
  - done.
  - f_equal. rewrite map_map. apply map_ext. intros s. by apply IH.
Qed.

Section Expansion.

Variables C C' :
  requestContext → heap → list Selection → list string →
  exec (list CollectedField).
Hypothesis C_iso : collectIso π C C'.

Lemma expand_rename (n : nat) :
  ∀ p op h1 h2,
    heapIso π h1 h2 →
    execRel (heapIso π)
      (recursivelyExpandFragmentSelections C n p op h1)
      (recursivelyExpandFragmentSelections C' n (π p) (renameOperation π op) h2).
Proof.
  induction n as [|n IH]; intros p op h1 h2 Hiso; [done|].
  simpl. rewrite (Hiso p). destruct (h1 !! p) as [f|]; simpl; [|done].
  destruct (Field_Definition f) as [def|]; simpl; [|done].
  destruct (fieldSatisfies _ _) as [[satisfies|]| |]; simpl; try done.
  unfold expandWith.
  apply execRel_bind with (λ c c', c' = map (renameCollected π) c).
  { change {| RawQuery := operation_query (renameOperation π op);
              Variables := operation_vars (renameOperation π op);
              Doc := operation_doc (renameOperation π op) |}
      with (renameContext π {| RawQuery := operation_query op;
                               Variables := operation_vars op;
                               Doc := operation_doc op |}).
    simpl. rewrite (C_iso _ h1 h2) by done. apply execRel_map. }
  intros collected ? ->.
  set (sels := map (λ cf, FieldSel (CollectedField_Field cf)) collected).
  assert (Hsels : map (λ cf, FieldSel (CollectedField_Field cf))
                      (map (renameCollected π) collected)
                  = map (renameSel π) sels).
  { subst sels. rewrite !map_map. by apply map_ext. }
  rewrite Hsels.
  apply forEach_rel.
  - intros s t t' _ Htt'.
    apply execRel_bind with (λ p q, q = π p); [apply assertField_rename|].
    intros q ? ->. by apply IH.
  - by apply (heapIso_insert h1 h2 p (setSelectionSet f sels)).
Qed.

Lemma expandOperation_rename (n : nat) (op : operation) (h1 h2 : heap) :
  heapIso π h1 h2 →
  execRel (heapIso π)
    (expandOperation C n op h1)
    (expandOperation C' n (renameOperation π op) h2).
Proof.
  intros Hiso. unfold expandOperation. simpl. apply forEach_rel; [|done].
  intros s t t' _ Htt'.
  apply execRel_bind with (λ p q, q = π p); [apply assertField_rename|].
  intros q ? ->. by apply expand_rename.
Qed.

End Expansion.

End Renaming.

(** ** [collectFields] as modelled does not look at addresses *)

Lemma mergeField_rename (π : ptr → ptr) (key : string) (cf : CollectedField)
    (grouped : list (string * CollectedField)) :
  mergeField key (renameCollected π cf) (map (renameKeyed π) grouped) =
  map (renameKeyed π) (mergeField key cf grouped).
Proof.
  induction grouped as [|[k g] grouped IH]; simpl; [done|].
  destruct (decide (k = key)); simpl.
  - unfold renameKeyed, renameCollected. simpl. by rewrite map_app.
  - by rewrite IH.
Qed.

Lemma mergeFields_rename (π : ptr → ptr)
    (children grouped : list (string * CollectedField)) :
  mergeFields (map (renameKeyed π) grouped) (map (renameKeyed π) children) =
  map (renameKeyed π) (mergeFields grouped children).
Proof.
  unfold mergeFields. revert grouped.
  induction children as [|[k c] children IH]; intros grouped; simpl; [done|].
  by rewrite mergeField_rename, IH.
Qed.

Lemma FragmentDefinitionList_ForName_rename (π : ptr → ptr)
    (l : list FragmentDefinition) (name : string) :
  FragmentDefinitionList_ForName (map (renameFragment π) l) name =
  renameFragment π <$> FragmentDefinitionList_ForName l name.
Proof.
  unfold FragmentDefinitionList_ForName.
  induction l as [|d l IH]; simpl; [done|].
  by destruct (bool_decide (FragmentDefinition_Name d = name)).
Qed.

Lemma execRel_eq_map {A B : Type} (g : A → B) (m1 : exec A) (m2 : exec B) :
  execRel (λ a b, b = g a) m1 m2 ↔ m2 = exec_map g m1.
Proof.
  destruct m1 as [a| |], m2 as [b| |]; simpl; split; intros H;
    try done; congruence.
Qed.

Lemma collectFieldsAux_rename (π : ptr → ptr) (fuel : nat) :
  ∀ reqCtx h1 h2 satisfies sels,
    heapIso π h1 h2 →
    collectFieldsAux fuel (renameContext π reqCtx) h2 satisfies
                     (map (renameSel π) sels) =
    exec_map (map (renameKeyed π))
             (collectFieldsAux fuel reqCtx h1 satisfies sels).
Proof.
  induction fuel as [|fuel IH]; intros reqCtx h1 h2 satisfies sels Hiso; [done|].
  apply execRel_eq_map. simpl.
  apply (forEach_rel (λ a b, b = map (renameKeyed π) a)); [|done].
  intros s grouped ? _ ->. destruct s as [p|name|tc inner]; simpl.
  - rewrite (Hiso p). destruct (h1 !! p) as [f|]; simpl; [|done].
    apply (mergeField_rename π (responseKey f)
             {| CollectedField_Field := p;
                CollectedField_Selections := Field_SelectionSet f |}).
  - rewrite FragmentDefinitionList_ForName_rename.
    destruct (FragmentDefinitionList_ForName (Fragments (Doc reqCtx)) name)
      as [fragment|]; simpl; [|done].
    destruct (bool_decide (FragmentDefinition_TypeCondition fragment ∈ satisfies));
      simpl; [|done].
    rewrite (IH reqCtx h1 h2) by done.
    destruct (collectFieldsAux fuel reqCtx h1 satisfies _) as [children| |];
      simpl; [|done..].
    apply mergeFields_rename.
  - destruct (bool_decide (tc ∈ satisfies)); simpl; [|done].
    rewrite (IH reqCtx h1 h2) by done.
    destruct (collectFieldsAux fuel reqCtx h1 satisfies inner) as [children| |];
      simpl; [|done..].
    apply mergeFields_rename.
Qed.

Lemma collectFieldsWithin_iso (π : ptr → ptr) (fuel : nat) :
  collectIso π (collectFieldsWithin fuel) (collectFieldsWithin fuel).
Proof.
  intros reqCtx h1 h2 sels satisfies Hiso. unfold collectFieldsWithin.
  rewrite (collectFieldsAux_rename π fuel reqCtx h1 h2) by done.
  destruct (collectFieldsAux fuel reqCtx h1 satisfies sels) as [l| |];
    simpl; [|done..].
  f_equal. rewrite !map_map. by apply map_ext.
Qed.

Lemma heapIso_kmap (π : ptr → ptr) `{!Inj (=) (=) π} (h : heap) :
  heapIso π h (kmap π (renameField π <$> h)).
Proof. intros p. by rewrite lookup_kmap, lookup_fmap. Qed.

(** ** The two runs *)

Lemma OperationList_ForName_rename (π : ptr → ptr)
    (l : list OperationDefinition) (name : string) :
  OperationList_ForName (map (renameOperationDefinition π) l) name =
  renameOperationDefinition π <$> OperationList_ForName l name.
Proof.
  assert (Hfind : ∀ l,
    List.find (λ o, bool_decide (OperationDefinition_Name o = name))
              (map (renameOperationDefinition π) l) =
    renameOperationDefinition π <$>
      List.find (λ o, bool_decide (OperationDefinition_Name o = name)) l).
  { clear l. induction l as [|o l IH]; simpl; [done|].
    by destruct (bool_decide (OperationDefinition_Name o = name)). }
  destruct l as [|o [|o' l]]; [done| |apply (Hfind (o :: o' :: l))].
  simpl. destruct (decide (name = "")); [done|].
  by destruct (decide (OperationDefinition_Name o = name)).
Qed.

Section TwoRuns.

Variable π : ptr → ptr.
Hypothesis π_inj : Inj (=) (=) π.

Variables ParseQuery ParseQuery' : string → (QueryDocument * heap) + gqlError.
Variables Validate Validate' : Schema → QueryDocument → heap → list gqlError * heap.
Variables VariableValues VariableValues' :
  Schema → OperationDefinition → gmap string GoValue →
  gmap string GoValue + gqlError.
Variables collectFields collectFields' :
  requestContext → heap → list Selection → list string →
  exec (list CollectedField).

(** Coercing the variables and collecting fields do not depend on where the
    nodes of the document are. *)
Hypothesis VariableValues_iso :
  ∀ sch op vars,
    VariableValues' sch (renameOperationDefinition π op) vars =
    VariableValues sch op vars.
Hypothesis collectFields_iso : collectIso π collectFields collectFields'.

(** C10: two runs of [Operation] on the same request and schema, whose
    parsed and validated documents are the same up to the addresses of
    their nodes, end the same way: with the same error, or with operations
    whose selection trees are equal node for node, in the same order, at
    every depth, or with the same panic. *)
Theorem resolution_is_deterministic (fuel : nat) (s : schema) (req : Request)
    (doc : QueryDocument) (h h' : heap) :
  parsesAndValidates ParseQuery Validate s req doc h →
  parsesAndValidates ParseQuery' Validate' s req (renameDoc π doc) h' →
  heapIso π h h' →
  execRel sameResolution
    (Operation ParseQuery Validate VariableValues collectFields
               fuel (Some s) (Some req))
    (Operation ParseQuery' Validate' VariableValues' collectFields'
               fuel (Some s) (Some req)).
Proof.
  intros Hpv Hpv' Hiso.
  rewrite (Operation_validated _ _ VariableValues collectFields fuel s req doc h Hpv).
  rewrite (Operation_validated _ _ VariableValues' collectFields' fuel s req _ h' Hpv').
  simpl. rewrite length_map, OperationList_ForName_rename.
  destruct (decide (1 < length (Operations doc) ∧ Request_OperationName req = ""));
    [done|].
  destruct (OperationList_ForName (Operations doc) (Request_OperationName req))
    as [op|]; simpl; [|done].
  rewrite VariableValues_iso.
  destruct (VariableValues (schema_schema s) op (Request_Variables req))
    as [vars|e]; [|done].
  apply execRel_bind with (heapIso π).
  - apply (expandOperation_rename π π_inj collectFields collectFields'
             collectFields_iso fuel (operationOf s req doc op vars) h h' Hiso).
  - intros h1 h2 Hiso'. simpl. repeat split; try done.
    intros depth. rewrite map_map. apply map_ext. intros sel.
    by apply unfold_rename.
Qed.

End TwoRuns.

(** ** The resolver on the pets schema *)

Module PetsFacts.
Import Pets.

Lemma flat_map_nil {A B : Type} (g : A → list B) (l : list A) (x : A) :
  flat_map g l = [] → x ∈ l → g x = [].
Proof.
  induction l as [|a l IH]; simpl; intros Hnil Hx; [by apply elem_of_nil in Hx|].
  apply app_eq_nil in Hnil as [Ha Hl].
  apply elem_of_cons in Hx as [->|Hx]; [done | by apply IH].
Qed.

(** The validator of this module enforces the rule on leaves. *)
Lemma Validate_enforces_leaf_rule (sch : Schema) (doc : QueryDocument) (h0 h : heap) :
  Validate sch doc h0 = ([], h) → leafFieldsBare sch h.
Proof.
  unfold Validate. intros [= Hnil <-] p f def td Hp Hdef Htd Hkind.
  apply app_eq_nil in Hnil as [_ Hnil]. apply app_eq_nil in Hnil as [_ Hnil].
  apply elem_of_map_to_list in Hp.
  apply (flat_map_nil _ _ _ Hnil) in Hp. simpl in Hp.
  unfold violation in Hp. rewrite Hdef, Htd, Hkind in Hp.
  by destruct (Field_SelectionSet f).
Qed.

(** A field selected on a type that does not declare it is refused by the
    validator: [breed] is a field of [Dog], not of [Animal]. *)
Example validate_misplaced :
  (Validate astSchema misplacedDoc misplacedHeap).1 =
    [mkGqlError "Cannot query field breed on type Animal" [(1, 1)]].
Proof. vm_compute. reflexivity. Qed.

(** The example of the specification: [pet]'s selection set becomes
    [name, breed]. *)
Example resolve_inline :
  match resolve 3 (Some theSchema) (Some (request qInline "")) with
  | Done (ReturnOperation o h) =>
      OperationDefinition_SelectionSet (operation_op o) = [FieldSel 1] ∧
      Field_SelectionSet <$> h !! 1%positive = Some [FieldSel 2; FieldSel 3] ∧
      Field_Name <$> h !! 2%positive = Some "name" ∧
      Field_Name <$> h !! 3%positive = Some "breed"
  | _ => False
  end.
Proof. vm_compute. done. Qed.

(** A fragment used under two fields puts the same node under both. *)
Example resolve_shared :
  match resolve 3 (Some theSchema) (Some (request qShared "")) with
  | Done (ReturnOperation o h) =>
      Field_SelectionSet <$> h !! 1%positive = Some [FieldSel 3] ∧
      Field_SelectionSet <$> h !! 2%positive = Some [FieldSel 3]
  | _ => False
  end.
Proof. vm_compute. done. Qed.

End PetsFacts.

(** ** The theorems above, on requests against the pets schema *)

Section PetsRuns.
Import Pets PetsFacts.

Local Abbreviation collect3 := (collectFieldsWithin 3).

Lemma satisfies_by_kind_witness :
  ∃ satisfies,
    fieldSatisfies astSchema "Animal" = Done (Some satisfies) ∧
    (∀ t, t ∈ satisfies ↔
          t = "Animal" ∨
          ∃ d, d ∈ default [] (PossibleTypes astSchema !! "Animal") ∧
               Definition_Name d = t) ∧
    recursivelyExpandFragmentSelections collect3 3 1 inlineOperation inlineStore =
      expandWith collect3 (recursivelyExpandFragmentSelections collect3 2)
                 1 petField satisfies inlineOperation inlineStore.
Proof.
  apply (satisfies_by_kind collect3 2 1%positive inlineOperation inlineStore
           petField (mkFieldDefinition "pet" (NamedType "Animal")) tAnimal);
    vm_compute; reflexivity.
Defined.

Lemma expansion_preserves_field_attributes_witness :
  ∃ h',
    recursivelyExpandFragmentSelections collect3 3 1 inlineOperation inlineStore
      = Done h' ∧
    ∀ q, match inlineStore !! q with
         | Some f =>
             ∃ f', h' !! q = Some f' ∧
                   f' = setSelectionSet f (Field_SelectionSet f') ∧
                   Field_Name f' = Field_Name f ∧
                   Field_Alias f' = Field_Alias f ∧
                   responseKey f' = responseKey f ∧
                   Field_Arguments f' = Field_Arguments f ∧
                   Field_Definition f' = Field_Definition f
         | None => h' !! q = None
         end.
Proof.
  eexists. split; [vm_compute; reflexivity|].
  apply (expansion_preserves_field_attributes collect3 3 1 inlineOperation).
  vm_compute; reflexivity.
Defined.

Lemma no_fragment_after_resolution_witness :
  ∃ o h',
    resolve 3 (Some theSchema) (Some (request qInline "")) =
      Done (ReturnOperation o h') ∧
    ∀ sel,
      reachable h' (OperationDefinition_SelectionSet (operation_op o)) sel →
      ∃ p, sel = FieldSel p ∧ is_Some (h' !! p).
Proof.
  eexists _, _. split; [vm_compute; reflexivity|].
  apply (no_fragment_after_resolution ParseQuery Validate VariableValues collect3
           Validate_enforces_leaf_rule 3 (Some theSchema) (Some (request qInline ""))).
  vm_compute; reflexivity.
Defined.

Lemma validated (query name : string) (doc : QueryDocument) (h0 : heap) :
  query ≠ "" →
  ParseQuery query = inl (doc, h0) →
  (Validate astSchema doc h0).1 = [] →
  parsesAndValidates ParseQuery Validate theSchema (request query name) doc
                     (annotate <$> h0).
Proof.
  intros Hq Hp Hv. split; [done|]. exists h0. split; [done|].
  unfold Validate in *. simpl in *. by rewrite Hv.
Qed.

Lemma top_level_fragment_panics_witness :
  resolve 3 (Some theSchema) (Some (request qTopSpread "")) =
    Panic typeAssertionFailure.
Proof.
  destruct (top_level_fragment_panics ParseQuery Validate VariableValues collect3
              3 theSchema (request qTopSpread "") topSpreadDoc
              (annotate <$> petNameHeap)
              (anonymous [FragmentSpread "PetFields"]) ∅
              [] [] (FragmentSpread "PetFields")) as (_ & _ & Hpanic).
  - apply validated; [done | reflexivity | vm_compute; reflexivity].
  - split; [simpl; lia | reflexivity].
  - reflexivity.
  - reflexivity.
  - intros p. discriminate.
  - apply (Hpanic (annotate <$> petNameHeap)). reflexivity.
Defined.

Lemma sole_operation_is_selected_witness :
  selects inlineDoc (request qInline "") (anonymous [FieldSel 1]) ∧
  ∃ h', resolve 3 (Some theSchema) (Some (request qInline "")) =
          Done (ReturnOperation inlineOperation h').
Proof.
  destruct (sole_operation_is_selected ParseQuery Validate VariableValues collect3
              3 theSchema (request qInline "") inlineDoc
              (annotate <$> inlineHeap) (anonymous [FieldSel 1]))
    as (Hsel & _ & Hdone).
  - apply validated; [done | reflexivity | vm_compute; reflexivity].
  - reflexivity.
  - reflexivity.
  - split; [exact Hsel|]. eexists. apply (Hdone ∅); [reflexivity|].
    vm_compute; reflexivity.
Defined.

Lemma unknown_operation_name_witness :
  resolve 3 (Some theSchema) (Some (request qTwo "C")) =
    Done (ReturnError
            (errors_New "Supplied operation name C isn't present in the request.")).
Proof.
  apply (unknown_operation_name ParseQuery Validate VariableValues collect3
           3 theSchema (request qTwo "C") twoDoc (annotate <$> twoHeap)).
  - apply validated; [done | reflexivity | vm_compute; reflexivity].
  - intros o Ho. simpl in Ho.
    repeat (apply elem_of_cons in Ho as [->|Ho]; [discriminate|]).
    by apply elem_of_nil in Ho.
  - left. discriminate.
Defined.

(** C4 as stated fails: with no schema and a query that parses,
    [Operation] does not return the input error, it panics. *)
Lemma missing_schema_counterexample :
  resolve 3 None (Some (request qInline "")) = Panic nilSchemaFailure ∧
  resolve 3 None (Some (request qInline "")) ≠ Done (ReturnError noQueryError).
Proof. split; [reflexivity | discriminate]. Qed.

(** C6 as stated fails: this document has exactly one operation and the
    operation name is empty, and resolution fails at validation. *)
Lemma sole_operation_counterexample :
  ParseQuery qUnknownField = inl (unknownFieldDoc, unknownFieldHeap) ∧
  length (Operations unknownFieldDoc) = 1 ∧
  Request_OperationName (request qUnknownField "") = "" ∧
  resolve 3 (Some theSchema) (Some (request qUnknownField "")) =
    Done (ReturnError
            (gqlerror_List [mkGqlError "Cannot query field unknown" [(1, 1)]])).
Proof. repeat split; vm_compute; reflexivity. Qed.

(** C7 as stated fails: the operation name X is supplied and is the name of
    no operation of this document, whose one operation has no name, and
    resolution fails with the validator's errors, not with the
    unknown-operation error. *)
Lemma unknown_operation_invalid_document_counterexample :
  ParseQuery qUnknownField = inl (unknownFieldDoc, unknownFieldHeap) ∧
  map OperationDefinition_Name (Operations unknownFieldDoc) = [""] ∧
  Request_OperationName (request qUnknownField "X") = "X" ∧
  resolve 3 (Some theSchema) (Some (request qUnknownField "X")) =
    Done (ReturnError
            (gqlerror_List [mkGqlError "Cannot query field unknown" [(1, 1)]])) ∧
  resolve 3 (Some theSchema) (Some (request qUnknownField "X")) ≠
    Done (ReturnError (unknownOperationError "X")).
Proof. repeat split; try (vm_compute; reflexivity). discriminate. Qed.

(** C3 at a request it does not cover: the query
    [{ ... on Query { pet { name } } }] parses, passes validation and has
    one operation, and [Operation] returns neither an operation nor an
    error: it panics on the type assertion of line 79. *)
Theorem top_level_inline_fragment_is_fatal (fuel : nat) :
  ParseQuery qTopInline = inl (topInlineDoc, petNameHeap) ∧
  (Validate astSchema topInlineDoc petNameHeap).1 = [] ∧
  length (Operations topInlineDoc) = 1 ∧
  resolve fuel (Some theSchema) (Some (request qTopInline "")) =
    Panic typeAssertionFailure.
Proof. repeat split; vm_compute; reflexivity. Qed.

End PetsRuns.

Section PetsTwoRuns.
Import Pets PetsFacts.

Local Abbreviation collect3 := (collectFieldsWithin 3).

Lemma shift_inj : Inj (=) (=) shift.
Proof. intros p q H. unfold shift in H. by apply Pos.add_reg_r in H. Qed.

Lemma resolution_is_deterministic_witness :
  ∃ o1 h1 o2 h2,
    Operation ParseQuery Validate VariableValues collect3 3
              (Some theSchema) (Some (request qInline "")) =
      Done (ReturnOperation o1 h1) ∧
    Operation ParseQueryAgain Validate VariableValues collect3 3
              (Some theSchema) (Some (request qInline "")) =
      Done (ReturnOperation o2 h2) ∧
    h1 !! 11%positive = None ∧ is_Some (h2 !! 11%positive) ∧
    sameResolution (ReturnOperation o1 h1) (ReturnOperation o2 h2).
Proof.
  pose proof (resolution_is_deterministic shift shift_inj
                ParseQuery ParseQueryAgain Validate Validate
                VariableValues VariableValues collect3 collect3
                (λ _ _ _, eq_refl) (collectFieldsWithin_iso shift 3)
                3 theSchema (request qInline "") inlineDoc
                (annotate <$> inlineHeap)
                (annotate <$> kmap shift (renameField shift <$> inlineHeap)))
    as Hsame.
  remember (Operation ParseQuery Validate VariableValues collect3 3
              (Some theSchema) (Some (request qInline ""))) as r1 eqn:E1.
  remember (Operation ParseQueryAgain Validate VariableValues collect3 3
              (Some theSchema) (Some (request qInline ""))) as r2 eqn:E2.
  vm_compute in E1, E2. subst r1 r2.
  eexists _, _, _, _. split; [reflexivity|]. split; [reflexivity|].
  split; [reflexivity|]. split; [by eexists|].
  apply Hsame.
  - apply validated; [done | reflexivity | vm_compute; reflexivity].
  - split; [done|]. eexists. split; [reflexivity|]. vm_compute; reflexivity.
  - replace (annotate <$> kmap shift (renameField shift <$> inlineHeap))
      with (kmap shift (renameField shift <$> (annotate <$> inlineHeap)) : heap)
      by (vm_compute; reflexivity).
    apply (heapIso_kmap shift (Inj0 := shift_inj)).
Defined.

End PetsTwoRuns.

(** * Further properties of request.go *)

(** ** What the expander writes *)

Lemma keptOrRewritten_trans (sch : Schema) (f1 f2 f3 : Field) :
  keptOrRewritten sch f1 f2 → keptOrRewritten sch f2 f3 →
  keptOrRewritten sch f1 f3.
Proof.
  intros [->|(Hc & Hf2 & Hall2)] H23; [done|].
  destruct H23 as [->|(_ & Hf3 & Hall3)]; right; [done|].
  split; [done|]. split; [|done]. rewrite Hf3 at 1. by rewrite Hf2.
Qed.

Lemma writesOnlyFields_refl (sch : Schema) (h : heap) : writesOnlyFields sch h h.
Proof.
  intros q. destruct (h !! q) as [f|] eqn:E; [|done]. exists f. split; [done|].
  by left.
Qed.

Lemma writesOnlyFields_trans (sch : Schema) (h1 h2 h3 : heap) :
  writesOnlyFields sch h1 h2 → writesOnlyFields sch h2 h3 →
  writesOnlyFields sch h1 h3.
Proof.
  intros H12 H23 q. specialize (H12 q). specialize (H23 q).
  destruct (h1 !! q) as [f1|].
  - destruct H12 as (f2 & Hf2 & H12). rewrite Hf2 in H23.
    destruct H23 as (f3 & Hf3 & H23). exists f3. split; [done|].
    by eapply keptOrRewritten_trans.
  - by rewrite H12 in H23.
Qed.

Lemma forEach_ext {A S : Type} (body1 body2 : A → S → exec S) (l : list A) :
  (∀ a s, a ∈ l → body1 a s = body2 a s) →
  ∀ s, forEach body1 l s = forEach body2 l s.
Proof.
  induction l as [|a l IH]; intros Hbody s; [done|]. simpl.
  rewrite Hbody by left. destruct (body2 a s) as [s'| |]; simpl; [|done..].
  apply IH. intros b t Hb. apply Hbody. by right.
Qed.

Section ExpanderWrites.

Variable collectFields :
  requestContext → heap → list Selection → list string →
  exec (list CollectedField).

Local Abbreviation expand := (recursivelyExpandFragmentSelections collectFields).

Lemma expand_writesOnlyFields (n : nat) :
  ∀ field op h h',
    expand n field op h = Done h' →
    writesOnlyFields (schema_schema (operation_inSchema op)) h h'.
Proof.
  induction n as [|n IH]; intros field op h h' Hrun; [done|].
  simpl in Hrun.
  exec_step Hrun as f Hf. apply deref_Done in Hf.
  exec_step Hrun as def Hdef. apply deref_Done in Hdef.
  exec_step Hrun as sat Hsat.
  destruct sat as [satisfies|]; [|injection Hrun as <-; apply writesOnlyFields_refl].
  apply fieldSatisfies_Some in Hsat as (td & Htd & Hkind).
  unfold expandWith in Hrun. exec_step Hrun as collected Hcollected.
  set (sch := schema_schema (operation_inSchema op)) in *.
  apply (forEach_preserves (writesOnlyFields sch)) in Hrun.
  - eapply writesOnlyFields_trans; [|exact Hrun].
    intros q. destruct (decide (field = q)) as [<-|Hne].
    + rewrite Hf, lookup_insert_eq. eexists. split; [done|]. right.
      split; [by exists def, td|]. split; [done|]. simpl.
      apply Forall_forall. intros s Hs. apply list_elem_of_In in Hs.
      apply in_map_iff in Hs as (cf & <- & _). by eexists.
    + rewrite lookup_insert_ne by done. apply writesOnlyFields_refl.
  - apply writesOnlyFields_refl.
  - apply writesOnlyFields_trans.
  - intros s t t' _ Hs. exec_step Hs as p Hp. by eapply IH.
Qed.

(** X4: a completed run of the expander leaves every node of the store as
    it was, or, for a node whose type is an interface, a union or an object,
    replaces its selection set by one made of fields only.  It never writes
    a fragment into a selection set, never touches a field of another kind,
    and creates and removes no node. *)
Theorem expander_writes_only_fields (n : nat) (field : ptr) (op : operation)
    (h h' : heap) :
  expand n field op h = Done h' →
  ∀ q, match h !! q with
       | Some f =>
           ∃ f', h' !! q = Some f' ∧
                 (f' = f ∨
                  (compositeField (schema_schema (operation_inSchema op)) f ∧
                   f' = setSelectionSet f (Field_SelectionSet f') ∧
                   Forall isFieldSel (Field_SelectionSet f')))
       | None => h' !! q = None
       end.
Proof.
  intros Hrun q. apply expand_writesOnlyFields in Hrun. exact (Hrun q).
Qed.

(** The root of a completed run is a typed field of the store it started
    from. *)
Lemma expand_Done_typed (n : nat) (field : ptr) (op : operation) (h h' : heap) :
  expand n field op h = Done h' →
  ∃ f, h !! field = Some f ∧
       typedField (schema_schema (operation_inSchema op)) f.
Proof.
  destruct n as [|n]; [done|]. simpl. intros Hrun.
  exec_step Hrun as f Hf. apply deref_Done in Hf.
  exec_step Hrun as def Hdef. apply deref_Done in Hdef.
  exec_step Hrun as sat Hsat.
  exists f. split; [done|]. exists def.
  destruct sat as [satisfies|].
  - apply fieldSatisfies_Some in Hsat as (td & Htd & _). by exists td.
  - apply fieldSatisfies_None in Hsat as (td & Htd & _). by exists td.
Qed.

End ExpanderWrites.

(** ** The sub-selections that [collectFields] merges are not used *)

Section IgnoredSelections.

Variable ParseQuery : string → (QueryDocument * heap) + gqlError.
Variable Validate : Schema → QueryDocument → heap → list gqlError * heap.
Variable VariableValues :
  Schema → OperationDefinition → gmap string GoValue →
  gmap string GoValue + gqlError.
Variables C C' :
  requestContext → heap → list Selection → list string →
  exec (list CollectedField).

(** [C] and [C'] collect the same fields, whatever sub-selections they
    attach to them. *)
Hypothesis same_fields :
  ∀ reqCtx h sels satisfies,
    exec_map (map CollectedField_Field) (C' reqCtx h sels satisfies) =
    exec_map (map CollectedField_Field) (C reqCtx h sels satisfies).

Lemma expand_same_fields (n : nat) :
  ∀ field op h,
    recursivelyExpandFragmentSelections C' n field op h =
    recursivelyExpandFragmentSelections C n field op h.
Proof.
  induction n as [|n IH]; intros field op h; [done|]. simpl.
  destruct (h !! field) as [f|]; simpl; [|done].
  destruct (Field_Definition f) as [def|]; simpl; [|done].
  destruct (fieldSatisfies _ _) as [[satisfies|]| |]; simpl; try done.
  unfold expandWith.
  pose proof (same_fields
                {| RawQuery := operation_query op;
                   Variables := operation_vars op;
                   Doc := operation_doc op |}
                h (Field_SelectionSet f) satisfies) as Hsame.
  destruct (C' _ h (Field_SelectionSet f) satisfies) as [l'|m'|],
           (C _ h (Field_SelectionSet f) satisfies) as [l|m|];
    simpl in *; try done; [|congruence].
  injection Hsame as Hsame.
  assert (Hsels : map (λ cf, FieldSel (CollectedField_Field cf)) l' =
                  map (λ cf, FieldSel (CollectedField_Field cf)) l).
  { rewrite <- (map_map CollectedField_Field FieldSel l').
    rewrite <- (map_map CollectedField_Field FieldSel l). by rewrite Hsame. }
  rewrite Hsels. apply forEach_ext.
  intros s t _. destruct (assertField s) as [p| |]; simpl; [apply IH|done..].
Qed.

(** X3: the outcome of [Operation] depends on [collectFields] only through
    the fields it returns, in their order: the [Selections] it returns with
    each collected field are never read. *)
Theorem Operation_ignores_collected_Selections (fuel : nat)
    (s : option schema) (req : option Request) :
  Operation ParseQuery Validate VariableValues C' fuel s req =
  Operation ParseQuery Validate VariableValues C fuel s req.
Proof.
  destruct req as [r|]; [|done]. simpl.
  destruct (decide (Request_Query r = "")); [done|].
  destruct (ParseQuery (Request_Query r)) as [[doc h0]|e]; [|done].
  destruct s as [s|]; [|done]. simpl.
  destruct (Validate (schema_schema s) doc h0) as [listErr h].
  destruct (decide (length listErr ≠ 0)); [done|].
  destruct (decide (1 < length (Operations doc) ∧ Request_OperationName r = ""));
    [done|].
  destruct (OperationList_ForName (Operations doc) (Request_OperationName r))
    as [op|]; [|done].
  destruct (VariableValues (schema_schema s) op (Request_Variables r))
    as [vars|e]; [|done].
  unfold expandOperation. f_equal. apply forEach_ext.
  intros sel t _. destruct (assertField sel) as [p| |]; simpl; [|done..].
  apply expand_same_fields.
Qed.

End IgnoredSelections.

Lemma withoutSelections_same_fields
    (C : requestContext → heap → list Selection → list string →
         exec (list CollectedField))
    (reqCtx : requestContext) (h : heap) (sels : list Selection)
    (satisfies : list string) :
  exec_map (map CollectedField_Field) (withoutSelections C reqCtx h sels satisfies) =
  exec_map (map CollectedField_Field) (C reqCtx h sels satisfies).
Proof.
  unfold withoutSelections.
  destruct (C reqCtx h sels satisfies) as [l| |]; simpl; [|done..].
  f_equal. rewrite map_map. by apply map_ext.
Qed.

(** ** What [Operation] refuses, and what it returns *)

Section Verdicts.

Variable ParseQuery : string → (QueryDocument * heap) + gqlError.
Variable Validate : Schema → QueryDocument → heap → list gqlError * heap.
Variable VariableValues :
  Schema → OperationDefinition → gmap string GoValue →
  gmap string GoValue + gqlError.
Variable collectFields :
  requestContext → heap → list Selection → list string →
  exec (list CollectedField).

Local Abbreviation Operation' :=
  (Operation ParseQuery Validate VariableValues collectFields).

(** X1: [Operation] returns an error in exactly six situations, tried in
    this order: no request or an empty query text; a syntax error of the
    query; a non-empty list of validation errors; several operations and no
    operation name; an operation name that is not found; a variable that
    cannot be coerced.  The error is the same for every recursion budget and
    every [collectFields]: expanding fragments never yields an error. *)
Theorem Operation_refuses_iff (fuel : nat) (s : option schema)
    (req : option Request) (e : error) :
  Operation' fuel s req = Done (ReturnError e) ↔
  refused ParseQuery Validate VariableValues s req e.
Proof.
  split.
  - intros Hrun. destruct req as [r|]; simpl in Hrun;
      [|injection Hrun as <-; constructor].
    destruct (decide (Request_Query r = "")) as [Hq|Hq];
      [injection Hrun as <-; by constructor|].
    destruct (ParseQuery (Request_Query r)) as [[doc h0]|ge] eqn:Hparse;
      [|injection Hrun as <-; by constructor].
    destruct s as [s|]; [|done]. simpl in Hrun.
    destruct (Validate (schema_schema s) doc h0) as [listErr h] eqn:Hv.
    destruct (decide (length listErr ≠ 0)) as [Hlen|Hlen].
    { injection Hrun as <-. eapply refused_invalid; eauto.
      by intros ->. }
    assert (Hpv : parsesAndValidates ParseQuery Validate s r doc h).
    { split; [done|]. exists h0. split; [done|].
      destruct listErr; [done|]. simpl in Hlen. lia. }
    destruct (decide (1 < length (Operations doc) ∧ Request_OperationName r = ""))
      as [[Hmany Hname]|Hamb].
    { injection Hrun as <-. by eapply refused_ambiguous. }
    destruct (OperationList_ForName (Operations doc) (Request_OperationName r))
      as [op|] eqn:Hop.
    2: { injection Hrun as <-. by eapply refused_unknown. }
    destruct (VariableValues (schema_schema s) op (Request_Variables r))
      as [vars|ge] eqn:Hvars.
    2: { injection Hrun as <-. by eapply refused_variables. }
    by destruct (expandOperation _ _ _ _).
  - intros Hrefused.
    destruct Hrefused
      as [ |r Hq|r ge Hq Hparse|r s' doc h0 h l -> Hq Hparse Hv Hl
          |r s' doc h -> Hpv Hmany Hname|r s' doc h -> Hpv Hamb Hop
          |r s' doc h op ge -> Hpv Hsel Hvars].
    + by apply Operation_no_query; left.
    + apply Operation_no_query. right. by exists r.
    + by apply Operation_parse_error.
    + by eapply Operation_validation_error.
    + by eapply Operation_ambiguous.
    + by eapply Operation_unknown.
    + by eapply Operation_variable_error.
Qed.

(** A loop of which every iteration asserts a field and expands it: when it
    completes, each selection was a field, and a typed one in the store the
    loop started from. *)
Lemma forEach_expand_typed (fuel : nat) (op : operation)
    (sels : list Selection) :
  ∀ h h',
    forEach
      (λ s h, p <- assertField s ;;
              recursivelyExpandFragmentSelections collectFields fuel p op h)
      sels h = Done h' →
    Forall (λ sel, ∃ p f, sel = FieldSel p ∧ h !! p = Some f ∧
                          typedField (schema_schema (operation_inSchema op)) f)
           sels.
Proof.
  induction sels as [|s sels IH]; intros h h' Hrun; [done|].
  simpl in Hrun. exec_step Hrun as h1 Hs. exec_step Hs as p Hp.
  apply assertField_Done in Hp as ->.
  pose proof (expand_frame _ _ _ _ _ _ Hs) as Hframe.
  apply expand_Done_typed in Hs as (f & Hf & Htyped).
  constructor; [by exists p, f|].
  eapply Forall_impl; [by eapply IH|].
  intros sel (q & g & -> & Hg & Hgt). specialize (Hframe q).
  destruct (h !! q) as [g0|] eqn:Hq; [|congruence].
  destruct Hframe as [sels0 Hg0]. rewrite Hg0 in Hg. injection Hg as <-.
  exists q, g0. split; [done|]. split; [done|]. exact Hgt.
Qed.

(** X2: a successful [Operation] had a schema and a request with a query
    text that parses and passes validation; the operation it returns is the
    selected one, bound to the query text, the document, the schema and the
    coerced variables; every top-level selection of it is a field of the
    validated document that has a definition whose type is in the schema;
    and the store it leaves has the nodes of the validated document, each
    kept or given a selection set of fields. *)
Theorem resolved_operation_is_bound (fuel : nat) (s : option schema)
    (req : option Request) (o : operation) (h' : heap) :
  Operation' fuel s req = Done (ReturnOperation o h') →
  ∃ s' r doc h,
    s = Some s' ∧ req = Some r ∧
    parsesAndValidates ParseQuery Validate s' r doc h ∧
    selects doc r (operation_op o) ∧
    VariableValues (schema_schema s') (operation_op o) (Request_Variables r)
      = inl (operation_vars o) ∧
    operation_query o = Request_Query r ∧
    operation_doc o = doc ∧
    operation_inSchema o = s' ∧
    Forall (λ sel, ∃ p f, sel = FieldSel p ∧ h !! p = Some f ∧
                          typedField (schema_schema s') f)
           (OperationDefinition_SelectionSet (operation_op o)) ∧
    writesOnlyFields (schema_schema s') h h'.
Proof.
  intros Hrun.
  apply Operation_returns_operation in Hrun
    as (s' & r & doc & h & op & vars & -> & -> & Hpv & Hsel & Hvars & -> & Hexp).
  exists s', r, doc, h.
  do 8 (split; [done|]). split.
  - by apply forEach_expand_typed in Hexp.
  - revert Hexp. unfold expandOperation.
    apply (forEach_preserves (writesOnlyFields (schema_schema s'))).
    + apply writesOnlyFields_refl.
    + apply writesOnlyFields_trans.
    + intros sel t t' _ Hs. exec_step Hs as p Hp.
      by apply expand_writesOnlyFields in Hs.
Qed.

End Verdicts.

(** ** Every field of a resolved operation is typed *)

Lemma expanded_cons (sch : Schema) (s : Selection) (sels : list Selection)
    (h h1 h' : heap) (V1 V2 : gset ptr) :
  expanded sch [s] h h1 V1 → expanded sch sels h1 h' V2 →
  expanded sch (s :: sels) h h' (V1 ∪ V2).
Proof.
  intros [Hr1 Hc1 Ho1 Hb1] [Hr2 Hc2 Ho2 Hb2]. split; [| | |done].
  - constructor.
    + apply Forall_inv in Hr1. eapply fieldIn_mono; [|exact Hr1]. set_solver.
    + eapply Forall_impl; [exact Hr2|]. intros x. apply fieldIn_mono. set_solver.
  - intros p Hp. destruct (decide (p ∈ V2)) as [Hp2|Hp2].
    + destruct (Hc2 p Hp2) as (f & Hf & Hall). exists f. split; [done|].
      eapply Forall_impl; [exact Hall|]. intros x. apply fieldIn_mono. set_solver.
    + assert (Hp1 : p ∈ V1) by set_solver.
      destruct (Hc1 p Hp1) as (f & Hf & Hall). exists f.
      split; [by rewrite (Ho2 p Hp2)|].
      eapply Forall_impl; [exact Hall|]. intros x. apply fieldIn_mono. set_solver.
  - intros q Hq. rewrite Ho2 by set_solver. apply Ho1. set_solver.
Qed.

Lemma forEach_expandedTyped (sch : Schema)
    (body : Selection → heap → exec heap) (sels : list Selection) :
  (∀ s h h', s ∈ sels → leafFieldsBare sch h → body s h = Done h' →
             ∃ V, expandedTyped sch [s] h h' V) →
  ∀ h h', leafFieldsBare sch h → forEach body sels h = Done h' →
          ∃ V, expandedTyped sch sels h h' V.
Proof.
  induction sels as [|s sels IH]; intros Hbody h h' Hbare Hrun.
  - simpl in Hrun. injection Hrun as <-. exists ∅. split; [by split|].
    intros p Hp. set_solver.
  - simpl in Hrun. exec_step Hrun as h1 Hs.
    destruct (Hbody s h h1) as [V1 [He1 Ht1]]; [left | done | done |].
    destruct (IH (λ s h h' Hs, Hbody s h h' (list_elem_of_further _ _ _ Hs))
                 h1 h' (expanded_bare _ _ _ _ _ He1) Hrun) as [V2 [He2 Ht2]].
    exists (V1 ∪ V2). split; [by apply expanded_cons with h1|].
    intros p Hp. destruct (decide (p ∈ V2)) as [Hp2|Hp2]; [by apply Ht2|].
    assert (Hp1 : p ∈ V1) by set_solver.
    rewrite (expanded_outside _ _ _ _ _ He2 p Hp2). by apply Ht1.
Qed.

Section TypedTree.

Variable ParseQuery : string → (QueryDocument * heap) + gqlError.
Variable Validate : Schema → QueryDocument → heap → list gqlError * heap.
Variable VariableValues :
  Schema → OperationDefinition → gmap string GoValue →
  gmap string GoValue + gqlError.
Variable collectFields :
  requestContext → heap → list Selection → list string →
  exec (list CollectedField).

Local Abbreviation expand := (recursivelyExpandFragmentSelections collectFields).

Lemma expand_expandedTyped (n : nat) :
  ∀ field op h h',
    leafFieldsBare (schema_schema (operation_inSchema op)) h →
    expand n field op h = Done h' →
    ∃ V, expandedTyped (schema_schema (operation_inSchema op))
                       [FieldSel field] h h' V.
Proof.
  induction n as [|n IH]; intros field op h h' Hbare Hrun; [done|].
  pose proof (expand_Done_typed _ _ _ _ _ _ Hrun) as (f & Hf & Htyped).
  simpl in Hrun. rewrite Hf in Hrun. simpl in Hrun.
  exec_step Hrun as def Hdef. apply deref_Done in Hdef.
  exec_step Hrun as sat Hsat.
  set (sch := schema_schema (operation_inSchema op)) in *.
  destruct sat as [satisfies|].
  - apply fieldSatisfies_Some in Hsat as (td & Htd & Hkind).
    unfold expandWith in Hrun. exec_step Hrun as collected Hcollected.
    set (sels := map (λ cf, FieldSel (CollectedField_Field cf)) collected) in *.
    set (h1 := <[field := setSelectionSet f sels]> h) in *.
    assert (Hbare1 : leafFieldsBare sch h1).
    { intros p g gdef gtd Hp Hgdef Hgtd Hgkind. subst h1.
      destruct (decide (field = p)) as [<-|Hne].
      - rewrite lookup_insert_eq in Hp. injection Hp as <-. simpl in Hgdef.
        congruence.
      - rewrite lookup_insert_ne in Hp by done. by eapply Hbare. }
    apply (forEach_expandedTyped sch) in Hrun as [V [[Hr Hc Ho Hb] Ht]]; [| |done].
    + exists ({[field]} ∪ V). split; [split; [| | |done]|].
      * constructor; [|done]. exists field. split; [done | set_solver].
      * intros p Hp. destruct (decide (p ∈ V)) as [HpV|HpV].
        -- destruct (Hc p HpV) as (g & Hg & Hall). exists g. split; [done|].
           eapply Forall_impl; [exact Hall|]. intros x. apply fieldIn_mono.
           set_solver.
        -- assert (p = field) as -> by set_solver.
           exists (setSelectionSet f sels). split.
           ++ rewrite (Ho field HpV). subst h1. apply lookup_insert_eq.
           ++ simpl. eapply Forall_impl; [exact Hr|]. intros x.
              apply fieldIn_mono. set_solver.
      * intros q Hq. rewrite Ho by set_solver. subst h1.
        apply lookup_insert_ne. set_solver.
      * intros p Hp. destruct (decide (p ∈ V)) as [HpV|HpV]; [by apply Ht|].
        assert (p = field) as -> by set_solver.
        exists (setSelectionSet f sels). split; [|exact Htyped].
        rewrite (Ho field HpV). subst h1. apply lookup_insert_eq.
    + intros s t t' _ Hbt Hs. exec_step Hs as p Hp.
      apply assertField_Done in Hp as ->. by apply IH.
  - injection Hrun as <-.
    apply fieldSatisfies_None in Hsat as (td & Htd & Hkind).
    exists {[field]}. split; [split; [| |done|done]|].
    + constructor; [|done]. exists field. split; [done | set_solver].
    + intros p Hp. assert (p = field) as -> by set_solver.
      exists f. split; [done|].
      by rewrite (Hbare field f def td Hf Hdef Htd Hkind).
    + intros p Hp. assert (p = field) as -> by set_solver. by exists f.
Qed.

(** The validator enforces the rule on leaves. *)
Hypothesis Validate_leaf_rule :
  ∀ sch doc h0 h, Validate sch doc h0 = ([], h) → leafFieldsBare sch h.

(** X5: in the store that a successful [Operation] returns, every field
    reached from the selection set of the returned operation is a node of
    the store that has a definition whose type is a type of the schema, and
    its own selection set holds fields only: [field.Definition] and
    [Types[field.Definition.Type.Name()]] are never nil anywhere in a
    resolved operation. *)
Theorem resolved_tree_is_typed (fuel : nat) (s : option schema)
    (req : option Request) (o : operation) (h' : heap) :
  Operation ParseQuery Validate VariableValues collectFields fuel s req
    = Done (ReturnOperation o h') →
  ∀ sel,
    reachable h' (OperationDefinition_SelectionSet (operation_op o)) sel →
    ∃ p f, sel = FieldSel p ∧ h' !! p = Some f ∧
           typedField (schema_schema (operation_inSchema o)) f ∧
           Forall isFieldSel (Field_SelectionSet f).
Proof.
  intros Hrun sel Hsel.
  apply Operation_returns_operation in Hrun
    as (s' & req' & doc & h & op & vars & -> & -> & Hpv & _ & _ & Ho & Hexp).
  destruct Hpv as (_ & h0 & _ & Hv). apply Validate_leaf_rule in Hv.
  assert (Hsch : schema_schema (operation_inSchema o) = schema_schema s')
    by by rewrite Ho.
  rewrite <- Hsch in Hv. unfold expandOperation in Hexp.
  apply (forEach_expandedTyped (schema_schema (operation_inSchema o))) in Hexp
    as [V [[Hr Hc _ _] Ht]]; [| |done].
  - destruct (closedUnder_reachable h' V _ sel Hr Hc Hsel) as (p & -> & Hp).
    destruct (Ht p Hp) as (f & Hf & Htyped).
    exists p, f. repeat split; try done.
    destruct (Hc p Hp) as (f' & Hf' & Hall). rewrite Hf in Hf'.
    injection Hf' as <-. eapply Forall_impl; [exact Hall|].
    intros x (q & -> & _). by exists q.
  - intros x t t' _ Hbt Hx. exec_step Hx as p Hp.
    apply assertField_Done in Hp as ->. by eapply expand_expandedTyped.
Qed.

End TypedTree.

(** ** The further properties on the pets schema *)

Section PetsFurther.
Import Pets PetsFacts.

Local Abbreviation collect3 := (collectFieldsWithin 3).

Lemma expander_writes_only_fields_witness :
  ∃ h',
    recursivelyExpandFragmentSelections collect3 3 1 inlineOperation inlineStore
      = Done h' ∧
    Field_SelectionSet <$> h' !! 1%positive = Some [FieldSel 2; FieldSel 3] ∧
    ∀ q, match inlineStore !! q with
         | Some f =>
             ∃ f', h' !! q = Some f' ∧
                   (f' = f ∨
                    (compositeField astSchema f ∧
                     f' = setSelectionSet f (Field_SelectionSet f') ∧
                     Forall isFieldSel (Field_SelectionSet f')))
         | None => h' !! q = None
         end.
Proof.
  eexists. split; [vm_compute; reflexivity|]. split; [reflexivity|].
  apply (expander_writes_only_fields collect3 3 1 inlineOperation).
  vm_compute; reflexivity.
Defined.

Lemma Operation_ignores_collected_Selections_witness :
  Operation ParseQuery Validate VariableValues (withoutSelections collect3) 3
            (Some theSchema) (Some (request qInline "")) =
  Operation ParseQuery Validate VariableValues collect3 3
            (Some theSchema) (Some (request qInline "")).
Proof.
  apply (Operation_ignores_collected_Selections ParseQuery Validate VariableValues
           collect3 (withoutSelections collect3)).
  apply withoutSelections_same_fields.
Defined.

Lemma resolved_operation_is_bound_witness :
  ∃ o h',
    resolve 3 (Some theSchema) (Some (request qInline "")) =
      Done (ReturnOperation o h') ∧
    ∃ s' r doc h,
      Some theSchema = Some s' ∧ Some (request qInline "") = Some r ∧
      parsesAndValidates ParseQuery Validate s' r doc h ∧
      selects doc r (operation_op o) ∧
      VariableValues (schema_schema s') (operation_op o) (Request_Variables r)
        = inl (operation_vars o) ∧
      operation_query o = Request_Query r ∧
      operation_doc o = doc ∧
      operation_inSchema o = s' ∧
      Forall (λ sel, ∃ p f, sel = FieldSel p ∧ h !! p = Some f ∧
                            typedField (schema_schema s') f)
             (OperationDefinition_SelectionSet (operation_op o)) ∧
      writesOnlyFields (schema_schema s') h h'.
Proof.
  eexists _, _. split; [vm_compute; reflexivity|].
  apply (resolved_operation_is_bound ParseQuery Validate VariableValues collect3
           3 (Some theSchema) (Some (request qInline ""))).
  vm_compute; reflexivity.
Defined.

Lemma resolved_tree_is_typed_witness :
  ∃ o h',
    resolve 3 (Some theSchema) (Some (request qInline "")) =
      Done (ReturnOperation o h') ∧
    ∀ sel,
      reachable h' (OperationDefinition_SelectionSet (operation_op o)) sel →
      ∃ p f, sel = FieldSel p ∧ h' !! p = Some f ∧
             typedField (schema_schema (operation_inSchema o)) f ∧
             Forall isFieldSel (Field_SelectionSet f).
Proof.
  eexists _, _. split; [vm_compute; reflexivity|].
  apply (resolved_tree_is_typed ParseQuery Validate VariableValues collect3
           Validate_enforces_leaf_rule 3 (Some theSchema)
           (Some (request qInline ""))).
  vm_compute; reflexivity.
Defined.

End PetsFurther.
